(** * OpenAI Status Monitor: a shallow embedding of [monitor.py]

    The development follows [src/monitor.py] (class [OpenAIStatusMonitor]);
    [src/openai_status_monitor.py] holds the same methods with emoji added to
    the printed lines only.  A printed line is modelled as an [event]; the
    instance attributes [etags], [last_known_state] and
    [processed_incident_updates] are the fields of the [Monitor] record; a
    Python exception is a value of [exc]. *)

From stdpp Require Import base gmap strings list list_relations pretty.

(* ------------------------------------------------------------------ *)
(** ** Decoded JSON values *)

(** What [json.loads] (behind [response.json()]) produces.  Python's [None]
    is the decoded [null], so [JNull] also stands for a [None] returned by
    the monitor's methods.  Numbers are integers (floats are not modelled);
    [JObj kvs] is an object with its members [kvs] as they appear in the
    text.  The dict [json.loads] builds from them keeps, for a key given
    more than once, its first position and its last value: [d[k]] and
    [d.get(k)] see the last member named [k], and iteration and [str(d)] go
    through [dict_of kvs]. *)
#[warnings="-register-all"]
Inductive json :=
  | JNull
  | JBool (b : bool)
  | JNum (z : Z)
  | JStr (s : string)
  | JArr (l : list json)
  | JObj (kvs : list (string * json)).

(** The value of key [k] in the dict of [kvs]: its last member. *)
Fixpoint obj_lookup (k : string) (kvs : list (string * json)) : option json :=
  match kvs with
  | [] => None
  | (k', v) :: kvs' =>
      match obj_lookup k kvs' with
      | Some w => Some w
      | None => if String.eqb k k' then Some v else None
      end
  end.

(** [d[k] = v] on a dict held as its items in insertion order. *)
Definition dict_set {A : Type} (d : list (string * A)) (kv : string * A) : list (string * A) :=
  if existsb (fun e => String.eqb e.1 kv.1) d
  then map (fun e => if String.eqb e.1 kv.1 then kv else e) d
  else d ++ [kv].

(** The items of the dict built from the members [kvs], in order. *)
Definition dict_of {A : Type} (kvs : list (string * A)) : list (string * A) :=
  fold_left dict_set kvs [].

(** Python truthiness of a decoded value ([if summary_data:]). *)
Definition truthy (j : json) : bool :=
  match j with
  | JNull => false
  | JBool b => b
  | JNum z => negb (Z.eqb z 0)
  | JStr s => negb (String.eqb s "")
  | JArr l => negb (Nat.eqb (length l) 0)
  | JObj kvs => negb (Nat.eqb (length (dict_of kvs)) 0)
  end.

(** [str(x)] of a decoded value, as an f-string formats it.  Strings nested
    in containers are rendered between single quotes without escaping. *)
Fixpoint py_repr (j : json) : string :=
  match j with
  | JNull => "None"
  | JBool true => "True"
  | JBool false => "False"
  | JNum z => pretty z
  | JStr s => "'" +:+ s +:+ "'"
  | JArr l => "[" +:+ String.concat ", " (map py_repr l) +:+ "]"
  | JObj kvs =>
      "{" +:+ String.concat ", "
        (map (fun kv => "'" +:+ kv.1 +:+ "': " +:+ kv.2)
           (dict_of (map (fun kv => (kv.1, py_repr kv.2)) kvs))) +:+ "}"
  end.

Definition py_str (j : json) : string :=
  match j with
  | JStr s => s
  | _ => py_repr j
  end.

(* ------------------------------------------------------------------ *)
(** ** Exceptions and the parser's error monad *)

(** The exceptions that can leave [check_status_updates]: those the parser
    raises on a decoded payload, and the timeout of the HTTP session. *)
Inductive exc :=
  | KeyError (k : string)   (** [d["k"]] on a dict without key [k] *)
  | TypeError               (** subscripting or iterating a non-container *)
  | AttributeError          (** [.get] on a value that is not a dict *)
  | TimeoutError.           (** [asyncio.TimeoutError] *)

Definition Exn (A : Type) : Type := (exc + A)%type.

Global Instance exn_ret : MRet Exn := fun A x => inr x.
Global Instance exn_bind : MBind Exn :=
  fun A B f m => match m with inl e => inl e | inr x => f x end.

(** [x["k"]] *)
Definition py_getitem (x : json) (k : string) : Exn json :=
  match x with
  | JObj kvs =>
      match obj_lookup k kvs with
      | Some v => inr v
      | None => inl (KeyError k)
      end
  | _ => inl TypeError
  end.

(** [x.get("k", default)] *)
Definition py_dict_get (x : json) (k : string) (dflt : json) : Exn json :=
  match x with
  | JObj kvs => inr (default dflt (obj_lookup k kvs))
  | _ => inl AttributeError
  end.

(** [for y in x:] — the elements a [for] loop visits. *)
Definition py_iter (x : json) : Exn (list json) :=
  match x with
  | JArr l => inr l
  | JObj kvs => inr (map (fun kv => JStr kv.1) (dict_of kvs))
  | JStr s => inr (map (fun c => JStr (String c EmptyString)) (String.list_ascii_of_string s))
  | _ => inl TypeError
  end.

(* ------------------------------------------------------------------ *)
(** ** The dataclasses of [models.py] *)

(** The dataclasses do not convert their fields; the model carries each
    string field as the [str()] of the decoded value, which is the form in
    which [_detect_component_changes] formats it.  The status API serves
    strings there, for which this is the value itself. *)
Record ComponentStatus := {
  comp_id : string;
  comp_name : string;
  comp_status : string;
  comp_updated_at : string;
  comp_position : json;
}.

Record IncidentUpdate := {
  upd_id : string;
  upd_body : string;
  upd_created_at : string;
  upd_display_at : string;
  upd_status : string;
  upd_incident_id : string;
}.

Record Incident := {
  inc_id : string;
  inc_name : string;
  inc_status : string;
  inc_created_at : string;
  inc_updated_at : string;
  inc_resolved_at : option string;
  inc_impact : string;
  inc_updates : list IncidentUpdate;
}.

(* ------------------------------------------------------------------ *)
(** ** Parser: [_parse_components] and [_parse_incidents] *)

(** One iteration of the loop of [_parse_components]: the keyword
    arguments are evaluated left to right. *)
Definition parse_component (comp_data : json) : Exn ComponentStatus :=
  id ← py_getitem comp_data "id";
  name ← py_getitem comp_data "name";
  status ← py_getitem comp_data "status";
  updated_at ← py_getitem comp_data "updated_at";
  position ← py_getitem comp_data "position";
  mret {| comp_id := py_str id; comp_name := py_str name;
          comp_status := py_str status; comp_updated_at := py_str updated_at;
          comp_position := position |}.

Definition _parse_components (data : json) : Exn (list ComponentStatus) :=
  comps ← py_dict_get data "components" (JArr []);
  elems ← py_iter comps;
  mapM parse_component elems.

Definition parse_update (update_data : json) : Exn IncidentUpdate :=
  id ← py_getitem update_data "id";
  body ← py_getitem update_data "body";
  created_at ← py_getitem update_data "created_at";
  display_at ← py_getitem update_data "display_at";
  status ← py_getitem update_data "status";
  incident_id ← py_getitem update_data "incident_id";
  mret {| upd_id := py_str id; upd_body := py_str body;
          upd_created_at := py_str created_at; upd_display_at := py_str display_at;
          upd_status := py_str status; upd_incident_id := py_str incident_id |}.

Definition optional_str (j : json) : option string :=
  match j with JNull => None | _ => Some (py_str j) end.

(** One iteration of the outer loop of [_parse_incidents]: the updates are
    parsed first, then the incident's own fields. *)
Definition parse_incident (inc_data : json) : Exn Incident :=
  raw_updates ← py_dict_get inc_data "incident_updates" (JArr []);
  elems ← py_iter raw_updates;
  updates ← mapM parse_update elems;
  id ← py_getitem inc_data "id";
  name ← py_getitem inc_data "name";
  status ← py_getitem inc_data "status";
  created_at ← py_getitem inc_data "created_at";
  updated_at ← py_getitem inc_data "updated_at";
  resolved_at ← py_dict_get inc_data "resolved_at" JNull;
  impact ← py_getitem inc_data "impact";
  mret {| inc_id := py_str id; inc_name := py_str name; inc_status := py_str status;
          inc_created_at := py_str created_at; inc_updated_at := py_str updated_at;
          inc_resolved_at := optional_str resolved_at; inc_impact := py_str impact;
          inc_updates := updates |}.

Definition _parse_incidents (data : json) : Exn (list Incident) :=
  incs ← py_dict_get data "incidents" (JArr []);
  elems ← py_iter incs;
  mapM parse_incident elems.

(* ------------------------------------------------------------------ *)
(** ** HTTP: the responses the session can deliver, and [_fetch_with_etag] *)

Definition BASE_URL : string := "https://status.openai.com".
Definition SUMMARY_ENDPOINT : string := "/api/v2/summary.json".
Definition INCIDENTS_ENDPOINT : string := "/api/v2/incidents.json".

(** A response as the code reads it: the status code, the [ETag] header
    ([response.headers.get("ETag")]) and the outcome of [response.json()]:
    [None] when decoding raises (a [json.JSONDecodeError], or aiohttp's
    content-type error, a [ClientError]; both are caught alike). *)
Record response := {
  resp_status : Z;
  resp_etag : option string;
  resp_body : option json;
}.

(** What the session does with one request: deliver a response, raise an
    [aiohttp.ClientError] (caught by [_fetch_with_etag]), or run into the
    total timeout of the [ClientSession], which [__aenter__] leaves at
    aiohttp's default of 300 s.  The total timeout raises
    [asyncio.TimeoutError], which is not a [ClientError] and is not caught:
    [TimedOut] when it expires while the response is awaited, and
    [BodyTimedOut etag] when a 200 response with that [ETag] header has
    arrived and [response.json()] is still reading its body. *)
Inductive transport :=
  | Got (r : response)
  | ClientErr
  | TimedOut
  | BodyTimedOut (etag : option string).

(** The [If-None-Match] header the request of [_fetch_with_etag] carries. *)
Definition if_none_match (etags : gmap string string) (endpoint : string) : option string :=
  etags !! endpoint.

Definition dquote : Ascii.ascii := Ascii.ascii_of_nat 34.

Fixpoint drop_quotes (cs : list Ascii.ascii) : list Ascii.ascii :=
  match cs with
  | c :: cs' => if Ascii.eqb c dquote then drop_quotes cs' else cs
  | [] => []
  end.

(** [s.strip] of the double-quote character, as on the [ETag] value. *)
Definition strip_quotes (s : string) : string :=
  String.string_of_list_ascii
    (rev (drop_quotes (rev (drop_quotes (String.list_ascii_of_string s))))).

(** [if etag:], then [self.etags[endpoint]] is set to the tag stripped of
    double quotes. *)
Definition store_etag (etags : gmap string string) (endpoint : string)
    (etag : option string) : gmap string string :=
  match etag with
  | Some etag => if String.eqb etag "" then etags
                 else <[endpoint := strip_quotes etag]> etags
  | None => etags
  end.

(** [_fetch_with_etag]: the decoded body (or [None]), or the exception that
    leaves it, and the new [etags]. *)
Definition _fetch_with_etag (etags : gmap string string) (endpoint : string)
    (t : transport) : Exn json * gmap string string :=
  match t with
  | ClientErr => (inr JNull, etags)
  | TimedOut => (inl TimeoutError, etags)
  | BodyTimedOut etag => (inl TimeoutError, store_etag etags endpoint etag)
  | Got r =>
      if Z.eqb (resp_status r) 304 then (inr JNull, etags)
      else if Z.eqb (resp_status r) 200 then
        let etags' := store_etag etags endpoint (resp_etag r) in
        match resp_body r with
        | Some d => (inr d, etags')
        | None => (inr JNull, etags')
        end
      else (inr JNull, etags)
  end.

(* ------------------------------------------------------------------ *)
(** ** Change detection *)

(** The [event_type] argument of [_log_component_event]. *)
Inductive component_event_type :=
  | InitialStatus
  | StatusChangedFrom (old_state : string).

(** One printed notification: [_log_component_event] or [_log_incident_event]. *)
Inductive event :=
  | ComponentEvent (c : ComponentStatus) (ty : component_event_type)
  | IncidentEvent (i : Incident) (u : IncidentUpdate).

(** [f"component_{component.id}"] *)
Definition state_key (c : ComponentStatus) : string := "component_" +:+ comp_id c.

(** [f"{component.name}:{component.status}"] *)
Definition current_state (c : ComponentStatus) : string :=
  comp_name c +:+ ":" +:+ comp_status c.

(** [_detect_component_changes] on [self.last_known_state]. *)
Fixpoint _detect_component_changes (last_known_state : gmap string string)
    (components : list ComponentStatus) : gmap string string * list event :=
  match components with
  | [] => (last_known_state, [])
  | component :: rest =>
      let key := state_key component in
      let cur := current_state component in
      match last_known_state !! key with
      | None =>
          let '(st, evs) := _detect_component_changes (<[key := cur]> last_known_state) rest in
          (st, ComponentEvent component InitialStatus :: evs)
      | Some old_state =>
          if String.eqb old_state cur then _detect_component_changes last_known_state rest
          else
            let '(st, evs) := _detect_component_changes (<[key := cur]> last_known_state) rest in
            (st, ComponentEvent component (StatusChangedFrom old_state) :: evs)
      end
  end.

(** The inner loop of [_detect_incident_updates], over one incident's updates. *)
Fixpoint detect_updates (processed : gset string) (incident : Incident)
    (updates : list IncidentUpdate) : gset string * list event :=
  match updates with
  | [] => (processed, [])
  | update :: rest =>
      if decide (upd_id update ∈ processed) then detect_updates processed incident rest
      else
        let '(p, evs) := detect_updates ({[upd_id update]} ∪ processed) incident rest in
        (p, IncidentEvent incident update :: evs)
  end.

(** [_detect_incident_updates] on [self.processed_incident_updates]. *)
Fixpoint _detect_incident_updates (processed : gset string)
    (incidents : list Incident) : gset string * list event :=
  match incidents with
  | [] => (processed, [])
  | incident :: rest =>
      let '(p, evs1) := detect_updates processed incident (inc_updates incident) in
      let '(p', evs2) := _detect_incident_updates p rest in
      (p', evs1 ++ evs2)
  end.

(* ------------------------------------------------------------------ *)
(** ** The monitor: [check_status_updates] and [start_monitoring] *)

(** The mutable attributes of an [OpenAIStatusMonitor] instance. *)
Record Monitor := {
  etags : gmap string string;
  last_known_state : gmap string string;
  processed_incident_updates : gset string;
}.

(** [__init__]: all three empty. *)
Definition init_monitor : Monitor :=
  {| etags := ∅; last_known_state := ∅; processed_incident_updates := ∅ |}.

Definition set_etags (m : Monitor) (e : gmap string string) : Monitor :=
  {| etags := e; last_known_state := last_known_state m;
     processed_incident_updates := processed_incident_updates m |}.

(** The result of running a method: the instance afterwards, the events
    printed, and the exception that escaped, if any. *)
Definition outcome : Type := Monitor * list event * option exc.

(** The body of [if summary_data:]. *)
Definition process_summary (m : Monitor) (summary_data : json) : outcome :=
  match _parse_components summary_data with
  | inl e => (m, [], Some e)
  | inr components =>
      let '(st, evs) := _detect_component_changes (last_known_state m) components in
      ({| etags := etags m; last_known_state := st;
          processed_incident_updates := processed_incident_updates m |}, evs, None)
  end.

(** The body of [if incidents_data:]. *)
Definition process_incidents (m : Monitor) (incidents_data : json) : outcome :=
  match _parse_incidents incidents_data with
  | inl e => (m, [], Some e)
  | inr incidents =>
      let '(p, evs) := _detect_incident_updates (processed_incident_updates m) incidents in
      ({| etags := etags m; last_known_state := last_known_state m;
          processed_incident_updates := p |}, evs, None)
  end.

(** [check_status_updates]: [summary] and [incidents] are what the session
    does with the two requests.  Nothing catches an exception of the parser
    or of [_fetch_with_etag]: it leaves the method, and the incidents request
    is not made when it comes from the summary. *)
Definition check_status_updates (m : Monitor) (summary incidents : transport) : outcome :=
  let '(summary_res, et1) := _fetch_with_etag (etags m) SUMMARY_ENDPOINT summary in
  let m1 := set_etags m et1 in
  match summary_res with
  | inl e => (m1, [], Some e)
  | inr summary_data =>
      let '(m2, evs1, r1) := if truthy summary_data then process_summary m1 summary_data
                             else (m1, [], None) in
      match r1 with
      | Some e => (m2, evs1, Some e)
      | None =>
          let '(incidents_res, et2) := _fetch_with_etag (etags m2) INCIDENTS_ENDPOINT incidents in
          let m3 := set_etags m2 et2 in
          match incidents_res with
          | inl e => (m3, evs1, Some e)
          | inr incidents_data =>
              let '(m4, evs2, r2) := if truthy incidents_data then process_incidents m3 incidents_data
                                     else (m3, [], None) in
              (m4, evs1 ++ evs2, r2)
          end
      end
  end.

(** [start_monitoring] over the responses of its first cycles: the
    [while True] loop runs one [check_status_updates] per cycle (the sleep
    has no effect on the state); an exception escaping a cycle is caught by
    [except Exception], logged, and ends the loop. *)
Fixpoint start_monitoring (m : Monitor) (cycles : list (transport * transport)) : outcome :=
  match cycles with
  | [] => (m, [], None)
  | (s, i) :: rest =>
      let '(m', evs, r) := check_status_updates m s i in
      match r with
      | Some e => (m', evs, Some e)
      | None =>
          let '(m'', evs', r') := start_monitoring m' rest in
          (m'', evs ++ evs', r')
      end
  end.

(* ------------------------------------------------------------------ *)
(** ** [_extract_products_from_incident] *)

(** [str.lower] on the model's strings, whose characters are ASCII. *)
Definition ascii_lower (c : Ascii.ascii) : Ascii.ascii :=
  let n := Ascii.nat_of_ascii c in
  if Nat.leb 65 n && Nat.leb n 90 then Ascii.ascii_of_nat (n + 32) else c.

Fixpoint str_lower (s : string) : string :=
  match s with
  | EmptyString => EmptyString
  | String c s' => String (ascii_lower c) (str_lower s')
  end.

Fixpoint is_prefix (p s : string) : bool :=
  match p, s with
  | EmptyString, _ => true
  | String c p', String d s' => Ascii.eqb c d && is_prefix p' s'
  | String _ _, EmptyString => false
  end.

(** [p in s] for strings: [p] occurs in [s] at some position. *)
Fixpoint contains (s p : string) : bool :=
  is_prefix p s || match s with EmptyString => false | String _ s' => contains s' p end.

(** The hard-coded [products] list. *)
Definition products : list string :=
  ["Chat Completions"; "Responses"; "Batch"; "Files"; "Fine-tuning"; "Embeddings";
   "Audio"; "Images"; "Realtime"; "ChatGPT"; "Sora"; "Vector stores"; "Moderation";
   "Assistants"; "Codex"; "Login"; "File uploads"; "Compliance API"].

(** [found_products] after the [for product in products] loop. *)
Definition found_products (incident_name : string) : list string :=
  let incident_lower := str_lower incident_name in
  filter (fun product => contains incident_lower (str_lower product) = true) products.

Definition _extract_products_from_incident (incident_name : string) : string :=
  match found_products incident_name with
  | [] => "OpenAI Services"
  | found => String.concat ", " found
  end.

(* ------------------------------------------------------------------ *)
(** ** Further views used in the statements *)

(** A record as the status API serves it: every field present, strings as
    JSON strings. *)
Definition component_to_json (c : ComponentStatus) : json :=
  JObj [("id", JStr (comp_id c)); ("name", JStr (comp_name c)); ("status", JStr (comp_status c));
        ("updated_at", JStr (comp_updated_at c)); ("position", comp_position c)].

Definition update_to_json (u : IncidentUpdate) : json :=
  JObj [("id", JStr (upd_id u)); ("body", JStr (upd_body u));
        ("created_at", JStr (upd_created_at u)); ("display_at", JStr (upd_display_at u));
        ("status", JStr (upd_status u)); ("incident_id", JStr (upd_incident_id u))].

Definition incident_to_json (i : Incident) : json :=
  JObj [("id", JStr (inc_id i)); ("name", JStr (inc_name i)); ("status", JStr (inc_status i));
        ("created_at", JStr (inc_created_at i)); ("updated_at", JStr (inc_updated_at i));
        ("resolved_at", match inc_resolved_at i with Some r => JStr r | None => JNull end);
        ("impact", JStr (inc_impact i));
        ("incident_updates", JArr (map update_to_json (inc_updates i)))].

(** The components printed with [Initial Status], in order. *)
Fixpoint initial_components (evs : list event) : list ComponentStatus :=
  match evs with
  | [] => []
  | ComponentEvent c InitialStatus :: rest => c :: initial_components rest
  | _ :: rest => initial_components rest
  end.

(** The signature of the last component of [cs] stored under key [k]. *)
Definition last_signature (k : string) (cs : list ComponentStatus) : option string :=
  fold_left (fun acc c => if String.eqb (state_key c) k then Some (current_state c) else acc) cs None.

(** How the validator map may change: entries of other keys than the two
    endpoints stay as they were, and no entry is removed. *)
Definition validators_step (et et' : gmap string string) : Prop :=
  forall k, (k <> SUMMARY_ENDPOINT -> k <> INCIDENTS_ENDPOINT -> et' !! k = et !! k) /\
            (is_Some (et !! k) -> is_Some (et' !! k)).

(** The invariant of [Initial Status] lines: their keys are pairwise
    distinct, were not stored before, and are exactly what the key set of
    [last_known_state] gains. *)
Definition initial_pass (st st' : gmap string string) (evs : list event) : Prop :=
  NoDup (map state_key (initial_components evs)) /\
  (forall c, c ∈ initial_components evs -> st !! state_key c = None) /\
  dom st' = list_to_set (map state_key (initial_components evs)) ∪ dom st.

(* ------------------------------------------------------------------ *)
(** ** Fixtures *)

Definition comp_json (id name status : string) : json :=
  JObj [("id", JStr id); ("name", JStr name); ("status", JStr status);
        ("updated_at", JStr "t1"); ("position", JNum 1)].

Definition summary_json (comps : list json) : json := JObj [("components", JArr comps)].

Definition update_json (id inc : string) : json :=
  JObj [("id", JStr id); ("body", JStr "text"); ("created_at", JStr "t1");
        ("display_at", JStr "t1"); ("status", JStr "investigating");
        ("incident_id", JStr inc)].

Definition incident_json (id name : string) (updates : list json) : json :=
  JObj [("id", JStr id); ("name", JStr name); ("status", JStr "investigating");
        ("created_at", JStr "t1"); ("updated_at", JStr "t1");
        ("impact", JStr "minor"); ("incident_updates", JArr updates)].

Definition incidents_json (incs : list json) : json := JObj [("incidents", JArr incs)].

Definition ok200 (body : json) : transport :=
  Got {| resp_status := 200; resp_etag := None; resp_body := Some body |}.

Definition not_modified : transport :=
  Got {| resp_status := 304; resp_etag := None; resp_body := None |}.

(* ------------------------------------------------------------------ *)
(** ** Views used in the statements *)

(** The line [_detect_component_changes] prints for [component] when
    [stored] is what [last_known_state] holds under its key. *)
Definition component_events (stored : option string) (component : ComponentStatus) : list event :=
  match stored with
  | None => [ComponentEvent component InitialStatus]
  | Some old_state =>
      if String.eqb old_state (current_state component) then []
      else [ComponentEvent component (StatusChangedFrom old_state)]
  end.

(** [last_known_state] after storing every component's signature in order. *)
Fixpoint store_all (st : gmap string string) (components : list ComponentStatus)
    : gmap string string :=
  match components with
  | [] => st
  | c :: rest => store_all (<[state_key c := current_state c]> st) rest
  end.

(** The incident-update ids of the incident events, in order. *)
Fixpoint emitted_update_ids (evs : list event) : list string :=
  match evs with
  | [] => []
  | IncidentEvent _ u :: rest => upd_id u :: emitted_update_ids rest
  | ComponentEvent _ _ :: rest => emitted_update_ids rest
  end.

(** Every (incident, update) pair of a payload, in feed order. *)
Definition update_pairs (incidents : list Incident) : list (Incident * IncidentUpdate) :=
  flat_map (fun i => map (fun u => (i, u)) (inc_updates i)) incidents.

(** The invariant of one pass: the ids printed are new, pairwise distinct,
    and exactly what the seen-set gains. *)
Definition dedup_pass (p p' : gset string) (evs : list event) : Prop :=
  NoDup (emitted_update_ids evs) /\
  (forall x, x ∈ emitted_update_ids evs -> x ∉ p) /\
  p' = list_to_set (emitted_update_ids evs) ∪ p.

Definition component_event_of (ck : ComponentStatus * component_event_type) : event :=
  ComponentEvent ck.1 ck.2.

Definition incident_event_of (iu : Incident * IncidentUpdate) : event :=
  IncidentEvent iu.1 iu.2.

(** The components [check_status_updates] hands to the detector for what
    the summary fetch gave ([[]] when it raised, when the value is skipped
    or when the parser raises). *)
Definition payload_components (res : Exn json) : list ComponentStatus :=
  match res with
  | inr data =>
      if truthy data then
        match _parse_components data with inr cs => cs | inl _ => [] end
      else []
  | inl _ => []
  end.

Definition payload_incidents (res : Exn json) : list Incident :=
  match res with
  | inr data =>
      if truthy data then
        match _parse_incidents data with inr is => is | inl _ => [] end
      else []
  | inl _ => []
  end.

(** Every two components of [cs] with the same id have the same
    [name:status] string. *)
Definition consistent_ids (cs : list ComponentStatus) : Prop :=
  forall c1 c2, c1 ∈ cs -> c2 ∈ cs -> comp_id c1 = comp_id c2 -> current_state c1 = current_state c2.

(** The keys each record parser reads with [d["k"]], in the order it reads
    them. *)
Definition component_fields : list string := ["id"; "name"; "status"; "updated_at"; "position"].
Definition update_fields : list string :=
  ["id"; "body"; "created_at"; "display_at"; "status"; "incident_id"].
Definition incident_fields : list string :=
  ["id"; "name"; "status"; "created_at"; "updated_at"; "impact"].

(** A record whose dict has no value for one of [fields]. *)
Definition lacks_field (fields : list string) (r : list (string * json)) : Prop :=
  Exists (fun k => obj_lookup k r = None) fields.

(** An incident record whose [incident_updates] is the list of update
    records [us]. *)
Definition update_records (r : list (string * json)) (us : list (list (string * json))) : Prop :=
  obj_lookup "incident_updates" r = Some (JArr (map JObj us)).

(** An incident record whose [incident_updates] is absent or a list of
    records. *)
Definition updates_are_records (r : list (string * json)) : Prop :=
  obj_lookup "incident_updates" r = None \/ exists us, update_records r us.

Definition mk_component (id name status : string) : ComponentStatus :=
  {| comp_id := id; comp_name := name; comp_status := status;
     comp_updated_at := "t1"; comp_position := JNum 1 |}.

Definition malformed_summary : json := summary_json [JObj [("id", JStr "c1")]].

Definition one_incident : json :=
  incidents_json [incident_json "i1" "Sora outage" [update_json "u1" "i1"]].

Example scenario_initial_changed_same :
  let s1 := summary_json [comp_json "c1" "API" "operational"] in
  let s2 := summary_json [comp_json "c1" "API" "degraded_performance"] in
  let '(m1, e1, _) := check_status_updates init_monitor (ok200 s1) not_modified in
  let '(m2, e2, _) := check_status_updates m1 (ok200 s2) not_modified in
  let '(m3, e3, _) := check_status_updates m2 (ok200 s2) not_modified in
  (length e1, length e2, length e3) = (1, 1, 0)%nat.
Proof. vm_compute. reflexivity. Qed.

Example scenario_incident_updates :
  let i1 := incidents_json [incident_json "i1" "Chat outage" [update_json "u1" "i1"; update_json "u2" "i1"]] in
  let i2 := incidents_json [incident_json "i1" "Chat outage"
              [update_json "u3" "i1"; update_json "u1" "i1"; update_json "u2" "i1"]] in
  let '(m1, e1, _) := check_status_updates init_monitor not_modified (ok200 i1) in
  let '(m2, e2, _) := check_status_updates m1 not_modified (ok200 i1) in
  let '(m3, e3, _) := check_status_updates m2 not_modified (ok200 i2) in
  (length e1, length e2, length e3) = (2, 0, 1)%nat.
Proof. vm_compute. reflexivity. Qed.

(* ------------------------------------------------------------------ *)
(** ** Component change detection *)

Section ComponentDetection.

Lemma state_key_inj (c1 c2 : ComponentStatus) :
  state_key c1 = state_key c2 -> comp_id c1 = comp_id c2.
Proof. unfold state_key. simpl. intros H. by simplify_eq. Qed.

Lemma NoDup_state_keys (cs : list ComponentStatus) :
  NoDup (map comp_id cs) -> NoDup (map state_key cs).
Proof.
  induction cs as [|c cs IH]; simpl; intros Hnd; [constructor|].
  apply NoDup_cons in Hnd as [Hnin Hnd]. apply NoDup_cons. split; [|by apply IH].
  intros Hin. apply Hnin. apply list_elem_of_In in Hin. apply in_map_iff in Hin as (c' & Hk & Hc').
  apply state_key_inj in Hk. apply list_elem_of_In, in_map_iff. eauto.
Qed.

(** The stored signature decides the event; the state always ends up
    holding the current signature. *)
Lemma detect_component_changes_cons (st : gmap string string) c cs :
  _detect_component_changes st (c :: cs) =
  let '(st', evs) := _detect_component_changes (<[state_key c := current_state c]> st) cs in
  (st', component_events (st !! state_key c) c ++ evs).
Proof.
  simpl. destruct (st !! state_key c) as [old|] eqn:Hst; simpl.
  - destruct (String.eqb_spec old (current_state c)) as [->|Hne].
    + rewrite insert_id by done. by destruct (_detect_component_changes st cs).
    + by destruct (_detect_component_changes _ cs).
  - by destruct (_detect_component_changes _ cs).
Qed.

Lemma detect_component_changes_state (st : gmap string string) cs :
  (_detect_component_changes st cs).1 = store_all st cs.
Proof.
  revert st. induction cs as [|c cs IH]; intros st; [done|].
  rewrite detect_component_changes_cons. simpl.
  destruct (_detect_component_changes _ cs) eqn:E. simpl.
  rewrite <- IH, E. done.
Qed.

Lemma store_all_lookup_notin (st : gmap string string) cs k :
  k ∉ map state_key cs -> store_all st cs !! k = st !! k.
Proof.
  revert st. induction cs as [|c cs IH]; intros st Hk; simpl; [done|].
  simpl in Hk. apply not_elem_of_cons in Hk as [Hne Hk].
  rewrite IH by done. by rewrite lookup_insert_ne.
Qed.

Lemma store_all_lookup_in (st st' : gmap string string) cs k :
  k ∈ map state_key cs -> store_all st cs !! k = store_all st' cs !! k.
Proof.
  revert st st'. induction cs as [|c cs IH]; intros st st' Hk; simpl in *.
  - by apply elem_of_nil in Hk.
  - destruct (decide (k ∈ map state_key cs)) as [Hin|Hnin]; [by apply IH|].
    apply elem_of_cons in Hk as [->|Hk]; [|done].
    rewrite !store_all_lookup_notin by done. by rewrite !lookup_insert_eq.
Qed.

Lemma store_all_idem (st : gmap string string) cs :
  store_all (store_all st cs) cs = store_all st cs.
Proof.
  apply map_eq. intros k.
  destruct (decide (k ∈ map state_key cs)) as [Hin|Hnin].
  - by apply store_all_lookup_in.
  - by rewrite !store_all_lookup_notin.
Qed.

Lemma store_all_stored (st : gmap string string) cs c :
  NoDup (map state_key cs) -> c ∈ cs -> store_all st cs !! state_key c = Some (current_state c).
Proof.
  revert st. induction cs as [|c' cs IH]; intros st Hnd Hc; simpl in *.
  - by apply elem_of_nil in Hc.
  - apply NoDup_cons in Hnd as [Hnin Hnd].
    apply elem_of_cons in Hc as [->|Hc]; [|by apply IH].
    rewrite store_all_lookup_notin by done. by rewrite lookup_insert_eq.
Qed.

Lemma detect_component_changes_all_stored (st : gmap string string) cs :
  (forall c, c ∈ cs -> st !! state_key c = Some (current_state c)) ->
  _detect_component_changes st cs = (st, []).
Proof.
  induction cs as [|c cs IH]; intros Hall; simpl; [done|].
  rewrite Hall by apply list_elem_of_here.
  rewrite String.eqb_refl. apply IH. intros c' Hc'. apply Hall. by apply list_elem_of_further.
Qed.

Lemma detect_component_changes_fresh (st : gmap string string) cs :
  NoDup (map state_key cs) ->
  (forall c, c ∈ cs -> st !! state_key c = None) ->
  (_detect_component_changes st cs).2 = map (fun c => ComponentEvent c InitialStatus) cs.
Proof.
  revert st. induction cs as [|c cs IH]; intros st Hnd Hnone; simpl; [done|].
  simpl in Hnd. apply NoDup_cons in Hnd as [Hnin Hnd].
  rewrite Hnone by apply list_elem_of_here.
  destruct (_detect_component_changes _ cs) as [st' evs] eqn:E. simpl.
  f_equal. change evs with (st', evs).2. rewrite <- E. apply IH; [done|].
  intros c' Hc'. rewrite lookup_insert_ne.
  - apply Hnone. by apply list_elem_of_further.
  - intros Heq. apply Hnin. rewrite Heq. apply list_elem_of_In, in_map, list_elem_of_In, Hc'.
Qed.

End ComponentDetection.

(** Claim C1 (code bug).  Component [c1] is first seen with name [a:b]
    and status [c], then with name [a] and status [b:c].  The pairs differ,
    but both are stored as the string [a:b:c], so the second observation
    prints no change. *)
Lemma detect_component_changes_signature_collision :
  (comp_name (mk_component "c1" "a:b" "c"), comp_status (mk_component "c1" "a:b" "c")) <>
  (comp_name (mk_component "c1" "a" "b:c"), comp_status (mk_component "c1" "a" "b:c")) /\
  (let '(st, _) := _detect_component_changes ∅ [mk_component "c1" "a:b" "c"] in
   (_detect_component_changes st [mk_component "c1" "a" "b:c"]).2) = [].
Proof. split; [simpl; congruence | vm_compute; reflexivity]. Qed.

(** Claim C3 fails on a payload that lists one component id twice with
    two statuses: the second and the third call with the same payload print
    two events each, as the first did. *)
Lemma detect_component_changes_replay_duplicate_id :
  (let cs := [mk_component "c1" "API" "operational"; mk_component "c1" "API" "degraded_performance"] in
   let '(st1, evs1) := _detect_component_changes ∅ cs in
   let '(st2, evs2) := _detect_component_changes st1 cs in
   let '(_, evs3) := _detect_component_changes st2 cs in
   (length evs1, length evs2, length evs3)) = (2, 2, 2)%nat.
Proof. vm_compute. reflexivity. Qed.

(* ------------------------------------------------------------------ *)
(** ** Incident-update deduplication *)

Section IncidentDedup.

Lemma emitted_update_ids_app (evs1 evs2 : list event) :
  emitted_update_ids (evs1 ++ evs2) = emitted_update_ids evs1 ++ emitted_update_ids evs2.
Proof.
  induction evs1 as [|[] evs1 IH]; simpl; [done | done | by rewrite IH].
Qed.

Lemma component_events_no_update_ids (st : gmap string string) cs :
  emitted_update_ids (_detect_component_changes st cs).2 = [].
Proof.
  revert st. induction cs as [|c cs IH]; intros st; [done|].
  rewrite detect_component_changes_cons.
  destruct (_detect_component_changes _ cs) as [st' evs] eqn:E. simpl.
  rewrite emitted_update_ids_app.
  change evs with (st', evs).2. rewrite <- E, IH.
  unfold component_events. destruct (st !! state_key c) as [old|]; [|done].
  by destruct (String.eqb old (current_state c)).
Qed.

Lemma dedup_pass_nil (p : gset string) : dedup_pass p p [].
Proof. split; [constructor|]. split; [intros x Hx; by apply elem_of_nil in Hx|]. simpl. set_solver. Qed.

Lemma dedup_pass_app (p p1 p2 : gset string) evs1 evs2 :
  dedup_pass p p1 evs1 -> dedup_pass p1 p2 evs2 -> dedup_pass p p2 (evs1 ++ evs2).
Proof.
  intros (Hnd1 & Hnew1 & ->) (Hnd2 & Hnew2 & ->).
  unfold dedup_pass. rewrite emitted_update_ids_app. split; [|split].
  - apply NoDup_app. split; [done|]. split; [|done].
    intros x Hx1 Hx2. apply (Hnew2 x Hx2). apply elem_of_union_l. by apply elem_of_list_to_set.
  - intros x Hx. apply elem_of_app in Hx as [Hx|Hx]; [by apply Hnew1|].
    intros Hp. apply (Hnew2 x Hx). set_solver.
  - rewrite list_to_set_app_L. set_solver.
Qed.

Lemma detect_updates_pass (p : gset string) i us :
  let '(p', evs) := detect_updates p i us in
  dedup_pass p p' evs /\ (forall u, u ∈ us -> upd_id u ∈ p').
Proof.
  revert p. induction us as [|u us IH]; intros p; simpl.
  - split; [apply dedup_pass_nil|]. intros u Hu. by apply elem_of_nil in Hu.
  - destruct (decide (upd_id u ∈ p)) as [Hin|Hnin].
    + specialize (IH p). destruct (detect_updates p i us) as [p' evs].
      destruct IH as [Hpass Hall]. split; [done|].
      intros u' Hu'. apply elem_of_cons in Hu' as [->|Hu']; [|by apply Hall].
      destruct Hpass as (_ & _ & ->). set_solver.
    + specialize (IH ({[upd_id u]} ∪ p)).
      destruct (detect_updates _ i us) as [p' evs]. destruct IH as [Hpass Hall].
      split.
      * change (IncidentEvent i u :: evs) with ([IncidentEvent i u] ++ evs).
        eapply dedup_pass_app; [|exact Hpass].
        split; [repeat constructor; set_solver|]. split.
        -- simpl. intros x Hx. apply list_elem_of_singleton in Hx as ->. done.
        -- simpl. set_solver.
      * intros u' Hu'. apply elem_of_cons in Hu' as [->|Hu']; [|by apply Hall].
        destruct Hpass as (_ & _ & ->). set_solver.
Qed.

Lemma detect_incident_updates_pass (p : gset string) is :
  let '(p', evs) := _detect_incident_updates p is in
  dedup_pass p p' evs /\ (forall iu, iu ∈ update_pairs is -> upd_id iu.2 ∈ p').
Proof.
  revert p. induction is as [|i is IH]; intros p; simpl.
  - split; [apply dedup_pass_nil|]. intros iu Hiu. by apply elem_of_nil in Hiu.
  - pose proof (detect_updates_pass p i (inc_updates i)) as H1.
    destruct (detect_updates p i _) as [p1 evs1].
    specialize (IH p1). destruct (_detect_incident_updates p1 is) as [p2 evs2].
    destruct H1 as [Hp1 Hall1], IH as [Hp2 Hall2].
    split; [by eapply dedup_pass_app|].
    intros [i' u] Hiu. apply elem_of_app in Hiu as [Hiu|Hiu]; [|by apply Hall2].
    apply list_elem_of_In, in_map_iff in Hiu as (u' & [= <- <-] & Hu').
    destruct Hp2 as (_ & _ & ->). apply elem_of_union_r. apply Hall1. by apply list_elem_of_In.
Qed.

Lemma detect_incident_updates_all_seen (p : gset string) is :
  (forall iu, iu ∈ update_pairs is -> upd_id iu.2 ∈ p) -> _detect_incident_updates p is = (p, []).
Proof.
  induction is as [|i is IH]; intros Hall; simpl; [done|].
  assert (Hus : detect_updates p i (inc_updates i) = (p, [])).
  { assert (Hin : forall u, u ∈ inc_updates i -> upd_id u ∈ p).
    { intros u Hu. apply (Hall (i, u)). simpl. apply elem_of_app. left.
      apply list_elem_of_In, in_map, list_elem_of_In, Hu. }
    clear Hall IH. induction (inc_updates i) as [|u us IHus]; simpl; [done|].
    rewrite decide_True by (apply Hin, list_elem_of_here).
    apply IHus. intros u' Hu'. apply Hin. by apply list_elem_of_further. }
  rewrite Hus, IH; [done|]. intros iu Hiu. apply Hall. simpl. apply elem_of_app. by right.
Qed.

Lemma check_status_updates_pass (m : Monitor) s i :
  let '(m', evs, _) := check_status_updates m s i in
  dedup_pass (processed_incident_updates m) (processed_incident_updates m') evs.
Proof.
  unfold check_status_updates.
  destruct (_fetch_with_etag (etags m) SUMMARY_ENDPOINT s) as [[e1|d1] et1]; [apply dedup_pass_nil|].
  assert (Hsum : let '(m2, evs1, _) := (if truthy d1 then process_summary (set_etags m et1) d1
                                        else (set_etags m et1, [], None)) in
                 processed_incident_updates m2 = processed_incident_updates m /\
                 emitted_update_ids evs1 = []).
  { destruct (truthy d1); [|done]. unfold process_summary.
    destruct (_parse_components d1) as [e|cs]; [done|].
    pose proof (component_events_no_update_ids (last_known_state (set_etags m et1)) cs) as H.
    destruct (_detect_component_changes _ cs) as [st evs]. done. }
  destruct (if truthy d1 then _ else _) as [[m2 evs1] r1]. destruct Hsum as [Hp2 Hids1].
  assert (Hpass1 : dedup_pass (processed_incident_updates m) (processed_incident_updates m2) evs1).
  { rewrite Hp2. split; [|split]; rewrite Hids1; [constructor | intros x Hx; by apply elem_of_nil in Hx | set_solver]. }
  destruct r1 as [e|]; [done|].
  destruct (_fetch_with_etag (etags m2) INCIDENTS_ENDPOINT i) as [[e2|d2] et2]; [done|].
  assert (Hinc : let '(m4, evs2, _) := (if truthy d2 then process_incidents (set_etags m2 et2) d2
                                        else (set_etags m2 et2, [], None)) in
                 dedup_pass (processed_incident_updates m2) (processed_incident_updates m4) evs2).
  { destruct (truthy d2); [|apply dedup_pass_nil].
    unfold process_incidents. destruct (_parse_incidents d2) as [e|is]; [apply dedup_pass_nil|].
    pose proof (detect_incident_updates_pass (processed_incident_updates (set_etags m2 et2)) is) as H.
    destruct (_detect_incident_updates _ is) as [p evs]. apply H. }
  destruct (if truthy d2 then _ else _) as [[m4 evs2] r2].
  by eapply dedup_pass_app.
Qed.

End IncidentDedup.

(** Claim C2.  Over any run of [start_monitoring] (any number of cycles of
    [check_status_updates], whatever the endpoints return), each
    incident-update id is printed at most once, never when it was already in
    [processed_incident_updates], and the set grows by exactly the printed
    ids; feeding [_detect_incident_updates] the payload it has just processed
    prints nothing and leaves the set unchanged. *)
Theorem incident_update_printed_at_most_once (m : Monitor) (cycles : list (transport * transport)) :
  (let '(m', evs, _) := start_monitoring m cycles in
   NoDup (emitted_update_ids evs) /\
   (forall x, x ∈ emitted_update_ids evs -> x ∉ processed_incident_updates m) /\
   processed_incident_updates m' = list_to_set (emitted_update_ids evs) ∪ processed_incident_updates m) /\
  (forall (p : gset string) is,
     _detect_incident_updates (_detect_incident_updates p is).1 is =
     ((_detect_incident_updates p is).1, [])).
Proof.
  split.
  - change (let '(m', evs, _) := start_monitoring m cycles in
            dedup_pass (processed_incident_updates m) (processed_incident_updates m') evs).
    revert m. induction cycles as [|[s i] cycles IH]; intros m; simpl; [apply dedup_pass_nil|].
    pose proof (check_status_updates_pass m s i) as H1.
    destruct (check_status_updates m s i) as [[m1 evs1] [e|]]; [done|].
    specialize (IH m1). destruct (start_monitoring m1 cycles) as [[m2 evs2] r2].
    by eapply dedup_pass_app.
  - intros p is. apply detect_incident_updates_all_seen.
    pose proof (detect_incident_updates_pass p is) as H.
    destruct (_detect_incident_updates p is) as [p' evs]. apply H.
Qed.

(* ------------------------------------------------------------------ *)
(** ** [_fetch_with_etag] and the frame of [check_status_updates] *)

Section Fetch.

Lemma fetch_with_etag_data (et et' : gmap string string) ep t :
  (_fetch_with_etag et ep t).1 = (_fetch_with_etag et' ep t).1.
Proof.
  destruct t as [r| | |h]; simpl; try done.
  destruct (Z.eqb (resp_status r) 304); [done|].
  destruct (Z.eqb (resp_status r) 200); [|done].
  by destruct (resp_body r).
Qed.

Lemma fetch_with_etag_value (et : gmap string string) ep t :
  (_fetch_with_etag et ep t).1 =
  match t with
  | Got r => inr (if Z.eqb (resp_status r) 200 then default JNull (resp_body r) else JNull)
  | ClientErr => inr JNull
  | TimedOut | BodyTimedOut _ => inl TimeoutError
  end.
Proof.
  destruct t as [r| | |h]; simpl; try done.
  destruct (Z.eqb_spec (resp_status r) 304) as [H304|_].
  - rewrite H304. done.
  - destruct (Z.eqb (resp_status r) 200); [|done]. by destruct (resp_body r).
Qed.

Lemma store_etag_other (et : gmap string string) ep ep' h :
  ep <> ep' -> store_etag et ep h !! ep' = et !! ep'.
Proof.
  intros Hne. destruct h as [e|]; simpl; [|done].
  destruct (String.eqb e ""); [done|]. by rewrite lookup_insert_ne.
Qed.

Lemma fetch_with_etag_other (et : gmap string string) ep ep' t :
  ep <> ep' -> (_fetch_with_etag et ep t).2 !! ep' = et !! ep'.
Proof.
  intros Hne. destruct t as [r| | |h]; simpl; try done; [|by apply store_etag_other].
  destruct (Z.eqb (resp_status r) 304); [done|].
  destruct (Z.eqb (resp_status r) 200); [|done].
  destruct (resp_body r); by apply store_etag_other.
Qed.

Lemma summary_ne_incidents : SUMMARY_ENDPOINT <> INCIDENTS_ENDPOINT.
Proof. unfold SUMMARY_ENDPOINT, INCIDENTS_ENDPOINT. congruence. Qed.

Lemma set_etags_same (m : Monitor) : set_etags m (etags m) = m.
Proof. by destruct m. Qed.

Lemma process_summary_frame (m : Monitor) d :
  let '(m', _, _) := process_summary m d in
  etags m' = etags m /\ processed_incident_updates m' = processed_incident_updates m.
Proof.
  unfold process_summary. destruct (_parse_components d); [done|].
  by destruct (_detect_component_changes _ _).
Qed.

Lemma process_incidents_frame (m : Monitor) d :
  let '(m', _, _) := process_incidents m d in
  etags m' = etags m /\ last_known_state m' = last_known_state m.
Proof.
  unfold process_incidents. destruct (_parse_incidents d); [done|].
  by destruct (_detect_incident_updates _ _).
Qed.

Lemma process_incidents_set_etags (m : Monitor) e d :
  process_incidents (set_etags m e) d =
  (let '(m', evs, r) := process_incidents m d in (set_etags m' e, evs, r)).
Proof.
  unfold process_incidents. destruct (_parse_incidents d); [done|].
  by destruct (_detect_incident_updates _ _).
Qed.

End Fetch.



(** Claim C7.  A 304 makes [_fetch_with_etag] return [None] with [etags]
    unchanged; in [check_status_updates] a 304 on the summary leaves
    [last_known_state] and the summary validator as they were, a 304 on the
    incidents leaves [processed_incident_updates] and the incidents
    validator as they were, and a cycle with 304 on both changes nothing and
    prints nothing. *)
Theorem not_modified_changes_nothing :
  (forall (et : gmap string string) ep h b,
     _fetch_with_etag et ep (Got {| resp_status := 304; resp_etag := h; resp_body := b |}) = (inr JNull, et)) /\
  (forall (m : Monitor) h b i,
     let '(m', _, _) := check_status_updates m
                          (Got {| resp_status := 304; resp_etag := h; resp_body := b |}) i in
     last_known_state m' = last_known_state m /\
     etags m' !! SUMMARY_ENDPOINT = etags m !! SUMMARY_ENDPOINT) /\
  (forall (m : Monitor) s h b,
     let '(m', _, _) := check_status_updates m s
                          (Got {| resp_status := 304; resp_etag := h; resp_body := b |}) in
     processed_incident_updates m' = processed_incident_updates m /\
     etags m' !! INCIDENTS_ENDPOINT = etags m !! INCIDENTS_ENDPOINT) /\
  (forall (m : Monitor) h b h' b',
     check_status_updates m (Got {| resp_status := 304; resp_etag := h; resp_body := b |})
       (Got {| resp_status := 304; resp_etag := h'; resp_body := b' |}) = (m, [], None)).
Proof.
  split; [done|]. split; [|split].
  - intros m h b i. unfold check_status_updates. simpl. rewrite set_etags_same.
    destruct (_fetch_with_etag (etags m) INCIDENTS_ENDPOINT i) as [d2 et2] eqn:E2.
    assert (Het2 : et2 !! SUMMARY_ENDPOINT = etags m !! SUMMARY_ENDPOINT).
    { change et2 with (d2, et2).2. rewrite <- E2.
      apply fetch_with_etag_other. intros H. by apply summary_ne_incidents. }
    destruct d2 as [e2|d2]; [simpl; done|].
    destruct (truthy d2); [|done].
    pose proof (process_incidents_frame (set_etags m et2) d2) as H.
    destruct (process_incidents _ d2) as [[m4 evs] r]. destruct H as [-> ->]. done.
  - intros m s h b. unfold check_status_updates.
    destruct (_fetch_with_etag (etags m) SUMMARY_ENDPOINT s) as [d1 et1] eqn:E1.
    assert (Het1 : et1 !! INCIDENTS_ENDPOINT = etags m !! INCIDENTS_ENDPOINT).
    { change et1 with (d1, et1).2. rewrite <- E1. apply fetch_with_etag_other, summary_ne_incidents. }
    destruct d1 as [e1|d1]; [simpl; done|].
    assert (Hsum : let '(m2, _, _) := (if truthy d1 then process_summary (set_etags m et1) d1
                                       else (set_etags m et1, [], None)) in
                   etags m2 = et1 /\ processed_incident_updates m2 = processed_incident_updates m).
    { destruct (truthy d1); [|done].
      pose proof (process_summary_frame (set_etags m et1) d1) as H.
      destruct (process_summary _ d1) as [[m2 evs] r]. done. }
    destruct (if truthy d1 then _ else _) as [[m2 evs1] [e|]]; destruct Hsum as [Het Hp].
    + by rewrite Het, Hp.
    + simpl. by rewrite Het.
  - intros m h b h' b'. unfold check_status_updates. simpl. by rewrite !set_etags_same.
Qed.

(** Claim C8 (as amended).  A 200 response whose [ETag] header is absent or
    empty leaves [etags] as it was, so the next request of that endpoint
    carries the previous validator, if there was one; a non-empty [ETag]
    replaces the endpoint's validator with its value stripped of double
    quotes. *)
Theorem fetch_with_etag_200_validator (et : gmap string string) ep b :
  (_fetch_with_etag et ep (Got {| resp_status := 200; resp_etag := None; resp_body := b |})).2 = et /\
  (forall e, (_fetch_with_etag et ep (Got {| resp_status := 200; resp_etag := Some e; resp_body := b |})).2 =
             if String.eqb e "" then et else <[ep := strip_quotes e]> et) /\
  if_none_match (_fetch_with_etag et ep (Got {| resp_status := 200; resp_etag := None; resp_body := b |})).2 ep =
    if_none_match et ep.
Proof.
  simpl. split; [by destruct b|]. split.
  - intros e. by destruct b.
  - by destruct b.
Qed.

(** Claim C8 fails: after a 200 without [ETag], the stored validator [abc]
    is still there and the next request still sends it. *)
Lemma fetch_with_etag_200_without_etag_keeps_validator :
  if_none_match (_fetch_with_etag {[SUMMARY_ENDPOINT := "abc"]} SUMMARY_ENDPOINT
                   (ok200 (summary_json []))).2 SUMMARY_ENDPOINT = Some "abc".
Proof. reflexivity. Qed.

(* ------------------------------------------------------------------ *)
(** ** One cycle: errors, independence, order, falsy bodies *)

Section Cycle.

Lemma dict_set_nonempty {A : Type} (d : list (string * A)) kv : dict_set d kv <> [].
Proof.
  destruct d as [|e d]; unfold dict_set; simpl; [discriminate|].
  destruct (_ || _); discriminate.
Qed.

Lemma dict_of_nonempty {A : Type} (kv : string * A) kvs : dict_of (kv :: kvs) <> [].
Proof.
  unfold dict_of. cbn [fold_left]. generalize (dict_set_nonempty [] kv).
  generalize (dict_set [] kv). induction kvs as [|kv' kvs IH]; intros d Hd; cbn [fold_left]; [done|].
  apply IH, dict_set_nonempty.
Qed.

Lemma parse_components_nonempty_truthy d c cs :
  _parse_components d = inr (c :: cs) -> truthy d = true.
Proof.
  destruct d as [| | | | |kvs]; simpl; try discriminate.
  destruct kvs as [|kv kvs]; [discriminate|].
  intros _. pose proof (dict_of_nonempty kv kvs) as H.
  destruct (dict_of (kv :: kvs)); done.
Qed.

Lemma detect_component_changes_nil_events (st : gmap string string) :
  (_detect_component_changes st []).2 = [].
Proof. done. Qed.

Lemma py_getitem_obj_error kvs k err :
  py_getitem (JObj kvs) k = inl err -> err = KeyError k /\ obj_lookup k kvs = None.
Proof. simpl. destruct (obj_lookup k kvs); [discriminate|]. intros H. by inversion H. Qed.

(** Case on every key lookup of a record parser. *)
Ltac case_lookups kvs :=
  repeat match goal with
         | |- context [obj_lookup ?k kvs] => destruct (obj_lookup k kvs) eqn:?
         end.

Lemma parse_component_error kvs err :
  parse_component (JObj kvs) = inl err -> exists k, err = KeyError k /\ obj_lookup k kvs = None.
Proof.
  unfold parse_component, mbind, exn_bind, py_getitem. case_lookups kvs;
  intros H; inversion H; subst; eauto.
Qed.

Lemma parse_update_error kvs err :
  parse_update (JObj kvs) = inl err -> exists k, err = KeyError k /\ obj_lookup k kvs = None.
Proof.
  unfold parse_update, mbind, exn_bind, py_getitem. case_lookups kvs;
  intros H; inversion H; subst; eauto.
Qed.

Lemma parse_component_ok kvs c :
  parse_component (JObj kvs) = inr c -> Forall (fun k => is_Some (obj_lookup k kvs)) component_fields.
Proof.
  unfold parse_component, mbind, exn_bind, py_getitem. case_lookups kvs;
  intros H; try discriminate; repeat constructor; eauto.
Qed.

Lemma parse_update_ok kvs u :
  parse_update (JObj kvs) = inr u -> Forall (fun k => is_Some (obj_lookup k kvs)) update_fields.
Proof.
  unfold parse_update, mbind, exn_bind, py_getitem. case_lookups kvs;
  intros H; try discriminate; repeat constructor; eauto.
Qed.

Lemma lacks_field_not_all fields r :
  lacks_field fields r -> Forall (fun k => is_Some (obj_lookup k r)) fields -> False.
Proof.
  unfold lacks_field. rewrite Exists_exists, Forall_forall.
  intros (k & Hk & Hn) Hall. destruct (Hall k Hk) as [v Hv]. congruence.
Qed.

Lemma parse_component_missing kvs :
  lacks_field component_fields kvs ->
  exists k, obj_lookup k kvs = None /\ parse_component (JObj kvs) = inl (KeyError k).
Proof.
  intros Hl. destruct (parse_component (JObj kvs)) as [err|c] eqn:E.
  - apply parse_component_error in E as (k & -> & Hk). eauto.
  - exfalso. apply parse_component_ok in E. by eapply lacks_field_not_all.
Qed.

Lemma parse_update_missing kvs :
  lacks_field update_fields kvs ->
  exists k, obj_lookup k kvs = None /\ parse_update (JObj kvs) = inl (KeyError k).
Proof.
  intros Hl. destruct (parse_update (JObj kvs)) as [err|u] eqn:E.
  - apply parse_update_error in E as (k & -> & Hk). eauto.
  - exfalso. apply parse_update_ok in E. by eapply lacks_field_not_all.
Qed.

Lemma mapM_cons_exn {A B : Type} (f : A -> Exn B) x l :
  mapM f (x :: l) =
  match f x with
  | inl e => inl e
  | inr y => match mapM f l with inl e => inl e | inr ys => inr (y :: ys) end
  end.
Proof. reflexivity. Qed.

Lemma mapM_inl_inv {A B : Type} (f : A -> Exn B) l e :
  mapM f l = inl e -> exists x, x ∈ l /\ f x = inl e.
Proof.
  induction l as [|x l IH]; [discriminate|]. rewrite mapM_cons_exn.
  destruct (f x) as [e'|y] eqn:Hx.
  - intros [= ->]. exists x. split; [apply list_elem_of_here|done].
  - destruct (mapM f l) as [e'|ys]; [|discriminate]. intros [= ->].
    destruct (IH eq_refl) as (x' & Hx' & Hf). exists x'. split; [by apply list_elem_of_further|done].
Qed.

Lemma mapM_Exists_inl {A B : Type} (f : A -> Exn B) l :
  Exists (fun x => exists e, f x = inl e) l -> exists e, mapM f l = inl e.
Proof.
  induction l as [|x l IH]; intros Hex; [inversion Hex|].
  rewrite mapM_cons_exn. destruct (f x) as [e|y] eqn:Hx; [by exists e|].
  apply Exists_cons in Hex as [(e & He)|Hex]; [congruence|].
  destruct (IH Hex) as [e He]. rewrite He. by exists e.
Qed.

Lemma Exists_map_JObj (P : json -> Prop) (Q : list (string * json) -> Prop) rs :
  (forall r, Q r -> P (JObj r)) -> Exists Q rs -> Exists P (map JObj rs).
Proof.
  intros HQP. induction 1 as [r rs Hr|r rs _ IH]; simpl; [by constructor; apply HQP|by constructor].
Qed.

Lemma in_map_JObj x rs : x ∈ map JObj rs -> exists r, x = JObj r /\ r ∈ rs.
Proof.
  intros Hx. apply list_elem_of_In, in_map_iff in Hx as (r & <- & Hr).
  exists r. split; [done|]. by apply list_elem_of_In.
Qed.

Lemma parse_incident_ok r i :
  parse_incident (JObj r) = inr i -> Forall (fun k => is_Some (obj_lookup k r)) incident_fields.
Proof.
  unfold parse_incident. cbn -[mapM].
  destruct (py_iter _) as [e|elems]; [discriminate|].
  cbn -[mapM]. destruct (mapM parse_update elems) as [e|us]; [discriminate|].
  cbn. case_lookups r; intros H; try discriminate; repeat constructor; eauto.
Qed.

Lemma parse_incident_error r e :
  updates_are_records r -> parse_incident (JObj r) = inl e ->
  exists k, e = KeyError k /\
    (obj_lookup k r = None \/
     exists us u, update_records r us /\ u ∈ us /\ obj_lookup k u = None).
Proof.
  intros [Hn | (us & Hs)]; unfold parse_incident; cbn -[mapM].
  - rewrite Hn. cbn. case_lookups r; intros H; inversion H; subst; eauto.
  - pose proof Hs as Hs'. unfold update_records in Hs'. rewrite Hs'. cbn -[mapM].
    destruct (mapM parse_update (map JObj us)) as [e'|ups] eqn:Hm.
    + cbn. intros [= ->]. destruct (mapM_inl_inv _ _ _ Hm) as (x & Hx & Hp).
      apply in_map_JObj in Hx as (u & -> & Hu).
      apply parse_update_error in Hp as (k & -> & Hk).
      exists k. split; [done|]. right. exists us, u. by repeat split.
    + cbn. case_lookups r; intros H; inversion H; subst; eauto.
Qed.

Lemma parse_incident_missing r :
  (lacks_field incident_fields r \/ exists us, update_records r us /\ Exists (lacks_field update_fields) us) ->
  exists e, parse_incident (JObj r) = inl e.
Proof.
  intros [Hl | (us & Hs & Hex)].
  - destruct (parse_incident (JObj r)) as [e|i] eqn:E; [by exists e|].
    exfalso. apply parse_incident_ok in E. by eapply lacks_field_not_all.
  - assert (Hm : exists e, mapM parse_update (map JObj us) = inl e).
    { apply mapM_Exists_inl. apply (Exists_map_JObj _ (lacks_field update_fields)); [|exact Hex].
      intros u Hu. destruct (parse_update_missing u Hu) as (k & _ & Hk). eauto. }
    destruct Hm as [e Hm]. exists e. unfold parse_incident. cbn -[mapM].
    unfold update_records in Hs. rewrite Hs. cbn -[mapM]. rewrite Hm. done.
Qed.

Lemma parse_components_missing kvs rs :
  obj_lookup "components" kvs = Some (JArr (map JObj rs)) ->
  Exists (lacks_field component_fields) rs ->
  exists k r, r ∈ rs /\ obj_lookup k r = None /\ _parse_components (JObj kvs) = inl (KeyError k).
Proof.
  intros Hc Hex. unfold _parse_components. cbn -[mapM]. rewrite Hc. cbn -[mapM].
  destruct (mapM_Exists_inl parse_component (map JObj rs)) as [e Hm].
  { apply (Exists_map_JObj _ (lacks_field component_fields)); [|exact Hex].
    intros r Hr. destruct (parse_component_missing r Hr) as (k & _ & Hk). eauto. }
  destruct (mapM_inl_inv _ _ _ Hm) as (x & Hx & Hp). apply in_map_JObj in Hx as (r & -> & Hr).
  apply parse_component_error in Hp as (k & -> & Hk). exists k, r. rewrite Hm. by repeat split.
Qed.

Lemma parse_incidents_missing kvs incs :
  obj_lookup "incidents" kvs = Some (JArr (map JObj incs)) ->
  Forall updates_are_records incs ->
  Exists (fun r => lacks_field incident_fields r \/
                   exists us, update_records r us /\ Exists (lacks_field update_fields) us) incs ->
  exists k r, r ∈ incs /\
    (obj_lookup k r = None \/ exists us u, update_records r us /\ u ∈ us /\ obj_lookup k u = None) /\
    _parse_incidents (JObj kvs) = inl (KeyError k).
Proof.
  intros Hc Hshape Hex. unfold _parse_incidents. cbn -[mapM]. rewrite Hc. cbn -[mapM].
  destruct (mapM_Exists_inl parse_incident (map JObj incs)) as [e Hm].
  { eapply Exists_map_JObj; [|exact Hex]. intros r Hr. by apply parse_incident_missing. }
  destruct (mapM_inl_inv _ _ _ Hm) as (x & Hx & Hp). apply in_map_JObj in Hx as (r & -> & Hr).
  rewrite Forall_forall in Hshape.
  apply parse_incident_error in Hp as (k & -> & Hk); [|by apply Hshape].
  exists k, r. rewrite Hm. by repeat split.
Qed.

Lemma component_events_shape (o : option string) c :
  exists oty, component_events o c = match oty with None => [] | Some ty => [ComponentEvent c ty] end.
Proof.
  unfold component_events. destruct o as [old|]; [|by exists (Some InitialStatus)].
  destruct (String.eqb old (current_state c)); [by exists None | by exists (Some (StatusChangedFrom old))].
Qed.

Lemma detect_component_changes_order (st : gmap string string) cs :
  exists cks, (_detect_component_changes st cs).2 = map component_event_of cks /\
              map fst cks `sublist_of` cs.
Proof.
  revert st. induction cs as [|c cs IH]; intros st; [exists []; split; constructor|].
  rewrite detect_component_changes_cons.
  destruct (IH (<[state_key c := current_state c]> st)) as (cks & Hevs & Hsub).
  destruct (_detect_component_changes _ cs) as [st' evs]. simpl in Hevs |- *. subst evs.
  destruct (component_events_shape (st !! state_key c) c) as [[ty|] ->].
  - exists ((c, ty) :: cks). split; [done|]. simpl. by apply sublist_skip.
  - exists cks. split; [done|]. by apply sublist_cons.
Qed.

Lemma detect_updates_order (p : gset string) i us :
  exists ius, (detect_updates p i us).2 = map incident_event_of ius /\
              ius `sublist_of` map (fun u => (i, u)) us.
Proof.
  revert p. induction us as [|u us IH]; intros p; simpl; [exists []; split; constructor|].
  destruct (decide (upd_id u ∈ p)).
  - destruct (IH p) as (ius & Hevs & Hsub). exists ius. split; [done|]. by apply sublist_cons.
  - destruct (IH ({[upd_id u]} ∪ p)) as (ius & Hevs & Hsub).
    destruct (detect_updates _ i us) as [p' evs]. simpl in Hevs |- *. subst evs.
    exists ((i, u) :: ius). split; [done|]. by apply sublist_skip.
Qed.

Lemma detect_incident_updates_order (p : gset string) is :
  exists ius, (_detect_incident_updates p is).2 = map incident_event_of ius /\
              ius `sublist_of` update_pairs is.
Proof.
  revert p. induction is as [|i is IH]; intros p; simpl; [exists []; split; constructor|].
  destruct (detect_updates_order p i (inc_updates i)) as (ius1 & Hevs1 & Hsub1).
  destruct (detect_updates p i _) as [p1 evs1]. simpl in Hevs1. subst evs1.
  destruct (IH p1) as (ius2 & Hevs2 & Hsub2).
  destruct (_detect_incident_updates p1 is) as [p2 evs2]. simpl in Hevs2 |- *. subst evs2.
  exists (ius1 ++ ius2). rewrite map_app. split; [done|]. by apply sublist_app.
Qed.

Lemma summary_part_order (m : Monitor) et1 d1 :
  let '(_, evs1, _) := if truthy d1 then process_summary (set_etags m et1) d1
                       else (set_etags m et1, [], None) in
  exists cks, evs1 = map component_event_of cks /\ map fst cks `sublist_of` payload_components (inr d1).
Proof.
  unfold payload_components. destruct (truthy d1); [|by exists []].
  unfold process_summary. destruct (_parse_components d1) as [e|cs]; [by exists []|].
  destruct (detect_component_changes_order (last_known_state (set_etags m et1)) cs) as (cks & H & Hsub).
  destruct (_detect_component_changes _ cs) as [st evs]. simpl in H. subst evs. by exists cks.
Qed.

Lemma incidents_part_order (m : Monitor) d2 :
  let '(_, evs2, _) := if truthy d2 then process_incidents m d2 else (m, [], None) in
  exists ius, evs2 = map incident_event_of ius /\ ius `sublist_of` update_pairs (payload_incidents (inr d2)).
Proof.
  unfold payload_incidents. destruct (truthy d2); [|exists []; split; constructor].
  unfold process_incidents. destruct (_parse_incidents d2) as [e|is]; [exists []; split; constructor|].
  destruct (detect_incident_updates_order (processed_incident_updates m) is) as (ius & H & Hsub).
  destruct (_detect_incident_updates _ is) as [p evs]. simpl in H. subst evs. by exists ius.
Qed.

End Cycle.




(** When the summary request returns 200 with a payload on which the
    component detector prints exactly one event, and the incidents request
    fails with an [aiohttp.ClientError], the cycle prints exactly that
    event, prints no incident event, raises nothing and leaves the seen-set
    as it was.  Conversely, a [ClientError] on the summary request does not
    stop the incidents endpoint: the cycle prints exactly what the incident
    detector prints for the fetched incidents payload. *)
Theorem incidents_failure_keeps_summary_events (m : Monitor) (h : option string) (d : json)
    (comps : list ComponentStatus) (ev : event)
    (Hparse : _parse_components d = inr comps)
    (Hone : (_detect_component_changes (last_known_state m) comps).2 = [ev]) :
  (let '(m', evs, r) :=
     check_status_updates m (Got {| resp_status := 200; resp_etag := h; resp_body := Some d |}) ClientErr in
   evs = [ev] /\ emitted_update_ids evs = [] /\ r = None /\
   processed_incident_updates m' = processed_incident_updates m) /\
  (forall i d2 incidents,
     (_fetch_with_etag (etags m) INCIDENTS_ENDPOINT i).1 = inr d2 ->
     truthy d2 = true ->
     _parse_incidents d2 = inr incidents ->
     (check_status_updates m ClientErr i).1.2 =
       (_detect_incident_updates (processed_incident_updates m) incidents).2 /\
     (check_status_updates m ClientErr i).2 = None).
Proof.
  split.
  - assert (Htr : truthy d = true).
    { destruct comps as [|c cs]; [discriminate Hone|]. by eapply parse_components_nonempty_truthy. }
    pose proof (component_events_no_update_ids (last_known_state m) comps) as Hids.
    unfold check_status_updates. simpl. rewrite Htr. unfold process_summary. rewrite Hparse. simpl.
    destruct (_detect_component_changes (last_known_state m) comps) as [st evs].
    simpl in Hone, Hids. subst evs. simpl. split; [done|split; [exact Hids|done]].
  - intros i d2 incidents Hd2 Htr Hparse_i.
    unfold check_status_updates. simpl. rewrite set_etags_same.
    destruct (_fetch_with_etag (etags m) INCIDENTS_ENDPOINT i) as [r2 et2]. simpl in Hd2. subst r2.
    simpl. rewrite Htr. unfold process_incidents. rewrite Hparse_i. simpl.
    by destruct (_detect_incident_updates _ incidents).
Qed.

Lemma incidents_failure_keeps_summary_events_witness :
  let d := summary_json [comp_json "c1" "API" "operational"] in
  _parse_components d = inr [mk_component "c1" "API" "operational"] /\
  (_detect_component_changes (last_known_state init_monitor) [mk_component "c1" "API" "operational"]).2 =
    [ComponentEvent (mk_component "c1" "API" "operational") InitialStatus] /\
  (check_status_updates init_monitor
     (Got {| resp_status := 200; resp_etag := None; resp_body := Some d |}) ClientErr).1.2 =
    [ComponentEvent (mk_component "c1" "API" "operational") InitialStatus].
Proof.
  intros d.
  assert (H1 : _parse_components d = inr [mk_component "c1" "API" "operational"]) by (vm_compute; reflexivity).
  assert (H2 : (_detect_component_changes (last_known_state init_monitor) [mk_component "c1" "API" "operational"]).2 =
                 [ComponentEvent (mk_component "c1" "API" "operational") InitialStatus]) by (vm_compute; reflexivity).
  split; [exact H1|]. split; [exact H2|].
  pose proof (proj1 (incidents_failure_keeps_summary_events init_monitor None d _ _ H1 H2)) as H.
  exact (proj1 H).
Defined.

(** Claim C6 (code bug).  The monitor has seen component [c1] as [API]
    [operational]; the summary now reports it [degraded_performance], and
    the incidents request runs into the session's total timeout.  The cycle
    prints the one change, then [asyncio.TimeoutError] escapes
    [check_status_updates] (a [ClientError] in its place is caught and the
    cycle ends normally), and [start_monitoring] stops: the next cycle,
    whose incidents payload has the new update [u1], never runs. *)
Lemma incidents_timeout_escapes_check :
  let m := {| etags := ∅; last_known_state := {["component_c1" := "API:operational"]};
              processed_incident_updates := ∅ |} in
  let s := ok200 (summary_json [comp_json "c1" "API" "degraded_performance"]) in
  (let '(_, evs, r) := check_status_updates m s TimedOut in (evs, r)) =
    ([ComponentEvent (mk_component "c1" "API" "degraded_performance") (StatusChangedFrom "API:operational")],
     Some TimeoutError) /\
  (let '(_, evs, r) := check_status_updates m s ClientErr in (evs, r)) =
    ([ComponentEvent (mk_component "c1" "API" "degraded_performance") (StatusChangedFrom "API:operational")],
     None) /\
  (let '(m', evs, r) := start_monitoring m [(s, TimedOut); (not_modified, ok200 one_incident)] in
   (length evs, r, elements (processed_incident_updates m'))) = (1%nat, Some TimeoutError, []).
Proof. split; [|split]; vm_compute; reflexivity. Qed.

(** Claim C9.  The events of one cycle are the component events followed by
    the incident events.  The component events follow the order of the
    components of the fetched summary payload.  The incident events follow
    the order of the (incident, update) pairs of the fetched incidents
    payload: incidents in feed order, and updates in feed order within each
    incident. *)
Theorem check_status_updates_event_order (m : Monitor) s i :
  exists cks ius,
    (check_status_updates m s i).1.2 = map component_event_of cks ++ map incident_event_of ius /\
    map fst cks `sublist_of` payload_components (_fetch_with_etag (etags m) SUMMARY_ENDPOINT s).1 /\
    ius `sublist_of` update_pairs (payload_incidents (_fetch_with_etag (etags m) INCIDENTS_ENDPOINT i).1).
Proof.
  unfold check_status_updates.
  destruct (_fetch_with_etag (etags m) SUMMARY_ENDPOINT s) as [[e1|d1] et1]; simpl.
  { exists [], []. split; [done|]. split; apply sublist_nil_l. }
  pose proof (summary_part_order m et1 d1) as Hsum.
  destruct (if truthy d1 then _ else _) as [[m2 evs1] r1].
  destruct Hsum as (cks & -> & Hcks).
  destruct r1 as [e|].
  - exists cks, []. rewrite app_nil_r. split; [done|]. split; [done|]. apply sublist_nil_l.
  - rewrite (fetch_with_etag_data (etags m) (etags m2)).
    destruct (_fetch_with_etag (etags m2) INCIDENTS_ENDPOINT i) as [[e2|d2] et2]; simpl.
    { exists cks, []. rewrite app_nil_r. split; [done|]. split; [done|]. apply sublist_nil_l. }
    pose proof (incidents_part_order (set_etags m2 et2) d2) as Hinc.
    destruct (if truthy d2 then _ else _) as [[m4 evs2] r2].
    destruct Hinc as (ius & -> & Hius). by exists cks, ius.
Qed.

(** Claim C10.  A 200 response whose decoded body is falsy (for instance
    [{}]) is skipped by [check_status_updates] as a 304 is.  The cycle
    prints the same events, raises the same exception, and leaves
    [last_known_state] and [processed_incident_updates] as the 304 cycle
    would.  For the summary endpoint this leaves [last_known_state] as it
    was; for the incidents endpoint it leaves the seen-set as it was. *)
Theorem falsy_body_skipped_like_not_modified (m : Monitor) (h : option string) (b : json)
    (Hfalsy : truthy b = false) (t : transport) :
  (let r1 := check_status_updates m (Got {| resp_status := 200; resp_etag := h; resp_body := Some b |}) t in
   let r2 := check_status_updates m not_modified t in
   r1.1.2 = r2.1.2 /\ r1.2 = r2.2 /\
   last_known_state r1.1.1 = last_known_state r2.1.1 /\
   processed_incident_updates r1.1.1 = processed_incident_updates r2.1.1 /\
   last_known_state r1.1.1 = last_known_state m) /\
  (let r1 := check_status_updates m t (Got {| resp_status := 200; resp_etag := h; resp_body := Some b |}) in
   let r2 := check_status_updates m t not_modified in
   r1.1.2 = r2.1.2 /\ r1.2 = r2.2 /\
   last_known_state r1.1.1 = last_known_state r2.1.1 /\
   processed_incident_updates r1.1.1 = processed_incident_updates r2.1.1 /\
   processed_incident_updates r1.1.1 = processed_incident_updates m).
Proof.
  split.
  - unfold check_status_updates.
    destruct (_fetch_with_etag (etags m) SUMMARY_ENDPOINT
                (Got {| resp_status := 200; resp_etag := h; resp_body := Some b |})) as [d1 et1] eqn:E1.
    assert (Hd1 : d1 = inr b).
    { change d1 with (d1, et1).1. rewrite <- E1. by rewrite fetch_with_etag_value. }
    subst d1. rewrite Hfalsy. simpl. rewrite set_etags_same.
    destruct (_fetch_with_etag (etags m) INCIDENTS_ENDPOINT t) as [d2 et2'] eqn:E2.
    destruct (_fetch_with_etag et1 INCIDENTS_ENDPOINT t) as [d2' et2] eqn:E2'.
    assert (Hd2 : d2' = d2).
    { change d2' with (d2', et2).1. rewrite <- E2'.
      rewrite (fetch_with_etag_data et1 (etags m)). by rewrite E2. }
    subst d2'. simpl.
    destruct d2 as [e2|d2]; [done|].
    destruct (truthy d2); [|done].
    rewrite !process_incidents_set_etags.
    pose proof (process_incidents_frame m d2) as Hfr.
    destruct (process_incidents m d2) as [[m4 evs] r]. destruct Hfr as [_ Hl]. done.
  - unfold check_status_updates.
    destruct (_fetch_with_etag (etags m) SUMMARY_ENDPOINT t) as [[e1|d1] et1]; [done|].
    assert (Hsum : let '(m2, _, _) := (if truthy d1 then process_summary (set_etags m et1) d1
                                       else (set_etags m et1, [], None)) in
                   processed_incident_updates m2 = processed_incident_updates m).
    { destruct (truthy d1); [|done].
      pose proof (process_summary_frame (set_etags m et1) d1) as H.
      destruct (process_summary _ d1) as [[m2 evs] r]. apply H. }
    destruct (if truthy d1 then _ else _) as [[m2 evs1] [e|]]; [done|].
    destruct (_fetch_with_etag (etags m2) INCIDENTS_ENDPOINT
                (Got {| resp_status := 200; resp_etag := h; resp_body := Some b |})) as [d2 et2] eqn:E2.
    assert (Hd2 : d2 = inr b).
    { change d2 with (d2, et2).1. rewrite <- E2. by rewrite fetch_with_etag_value. }
    subst d2. rewrite Hfalsy. simpl. done.
Qed.

Lemma falsy_body_skipped_like_not_modified_witness :
  truthy (JObj []) = false /\
  (check_status_updates init_monitor
     (Got {| resp_status := 200; resp_etag := Some "v1"; resp_body := Some (JObj []) |})
     (ok200 one_incident)).1.2 =
  (check_status_updates init_monitor not_modified (ok200 one_incident)).1.2.
Proof.
  assert (H : truthy (JObj []) = false) by reflexivity.
  split; [exact H|].
  exact (proj1 (proj1 (falsy_body_skipped_like_not_modified init_monitor (Some "v1") (JObj []) H
                         (ok200 one_incident)))).
Defined.

Example extract_products_examples :
  _extract_products_from_incident "Elevated errors on ChatGPT and file uploads" = "ChatGPT, File uploads" /\
  _extract_products_from_incident "Increased latency" = "OpenAI Services".
Proof. split; vm_compute; reflexivity. Qed.

(* ------------------------------------------------------------------ *)
(** ** The parsers on well-formed, extended and degenerate payloads *)

Section Parsers.

Lemma obj_lookup_app k kvs extra :
  obj_lookup k (kvs ++ extra) =
  match obj_lookup k extra with Some v => Some v | None => obj_lookup k kvs end.
Proof.
  induction kvs as [|[k' v] kvs IH]; simpl; [by destruct (obj_lookup k extra)|].
  rewrite IH. destruct (obj_lookup k extra); [done|]. by destruct (obj_lookup k kvs).
Qed.

Lemma mapM_map_inv {B : Type} (f : json -> Exn B) (g : B -> json) (l : list B) :
  (forall x, f (g x) = inr x) -> mapM f (map g l) = inr l.
Proof.
  intros H. induction l as [|x l IH]; [done|].
  cbn [map mapM]. rewrite H, IH. done.
Qed.

Lemma parse_component_to_json c : parse_component (component_to_json c) = inr c.
Proof. by destruct c. Qed.

Lemma parse_update_to_json u : parse_update (update_to_json u) = inr u.
Proof. by destruct u. Qed.

Lemma parse_incident_to_json i : parse_incident (incident_to_json i) = inr i.
Proof.
  destruct i as [id name st cr up res imp us]. unfold parse_incident.
  cbn -[mapM]. rewrite (mapM_map_inv parse_update update_to_json us parse_update_to_json).
  by destruct res.
Qed.

End Parsers.

(** [_parse_components] reads back every component of a summary whose
    [components] list holds the records as the status API serves them
    (all five keys, string values), in order and unchanged, whatever other
    keys the summary has. *)
Theorem parse_components_round_trip (kvs : list (string * json)) (cs : list ComponentStatus)
    (H : obj_lookup "components" kvs = Some (JArr (map component_to_json cs))) :
  _parse_components (JObj kvs) = inr cs.
Proof.
  unfold _parse_components. simpl. rewrite H. simpl.
  apply mapM_map_inv, parse_component_to_json.
Qed.

Lemma parse_components_round_trip_witness :
  let cs := [mk_component "c1" "API" "operational"; mk_component "c2" "ChatGPT" "degraded_performance"] in
  let kvs := [("page", JObj []); ("components", JArr (map component_to_json cs))] in
  obj_lookup "components" kvs = Some (JArr (map component_to_json cs)) /\
  _parse_components (JObj kvs) = inr cs.
Proof.
  simpl. split; [reflexivity|]. apply parse_components_round_trip. reflexivity.
Defined.

(** [_parse_incidents] reads back every incident of a payload whose
    [incidents] list holds the records as the status API serves them, with
    their updates, in order and unchanged; an unresolved incident's
    [resolved_at] is served as null and read as [None]. *)
Theorem parse_incidents_round_trip (kvs : list (string * json)) (is : list Incident)
    (H : obj_lookup "incidents" kvs = Some (JArr (map incident_to_json is))) :
  _parse_incidents (JObj kvs) = inr is.
Proof.
  unfold _parse_incidents. simpl. rewrite H. simpl.
  apply mapM_map_inv, parse_incident_to_json.
Qed.

Lemma parse_incidents_round_trip_witness :
  let u := {| upd_id := "u1"; upd_body := "Investigating"; upd_created_at := "t0";
              upd_display_at := "t0"; upd_status := "investigating"; upd_incident_id := "i1" |} in
  let i := {| inc_id := "i1"; inc_name := "ChatGPT errors"; inc_status := "investigating";
              inc_created_at := "t0"; inc_updated_at := "t0"; inc_resolved_at := None;
              inc_impact := "minor"; inc_updates := [u] |} in
  let kvs := [("incidents", JArr (map incident_to_json [i]))] in
  obj_lookup "incidents" kvs = Some (JArr (map incident_to_json [i])) /\
  _parse_incidents (JObj kvs) = inr [i].
Proof.
  simpl. split; [reflexivity|]. apply parse_incidents_round_trip. reflexivity.
Defined.

(** Members a component record carries beyond the five keys it reads are
    ignored: appending members whose keys are none of the five does not
    change what [_parse_components]'s loop does with the record, whether it
    builds a component or raises. *)
Theorem parse_component_extra_fields (kvs extra : list (string * json))
    (H : Forall (fun k => obj_lookup k extra = None) component_fields) :
  parse_component (JObj (kvs ++ extra)) = parse_component (JObj kvs).
Proof.
  unfold component_fields in H.
  repeat match goal with
         | Hf : Forall _ (_ :: _) |- _ => apply Forall_cons in Hf as [? Hf]
         end.
  unfold parse_component, py_getitem. rewrite !obj_lookup_app.
  repeat match goal with Hk : obj_lookup _ extra = None |- _ => rewrite Hk end.
  reflexivity.
Qed.

Lemma parse_component_extra_fields_witness :
  let kvs := [("id", JStr "c1"); ("name", JStr "API"); ("status", JStr "operational");
              ("updated_at", JStr "t0"); ("position", JNum 1)] in
  let extra := [("group_id", JNull); ("description", JNull)] in
  Forall (fun k => obj_lookup k extra = None) component_fields /\
  parse_component (JObj (kvs ++ extra)) = parse_component (JObj kvs).
Proof.
  cbv zeta. split; [apply (bool_decide_unpack _); vm_compute; reflexivity|].
  apply parse_component_extra_fields. apply (bool_decide_unpack _); vm_compute; reflexivity.
Defined.

(** The same for an incident update and the six keys it reads. *)
Theorem parse_update_extra_fields (kvs extra : list (string * json))
    (H : Forall (fun k => obj_lookup k extra = None) update_fields) :
  parse_update (JObj (kvs ++ extra)) = parse_update (JObj kvs).
Proof.
  unfold update_fields in H.
  repeat match goal with
         | Hf : Forall _ (_ :: _) |- _ => apply Forall_cons in Hf as [? Hf]
         end.
  unfold parse_update, py_getitem. rewrite !obj_lookup_app.
  repeat match goal with Hk : obj_lookup _ extra = None |- _ => rewrite Hk end.
  reflexivity.
Qed.

Lemma parse_update_extra_fields_witness :
  let kvs := [("id", JStr "u1"); ("body", JStr "Fixed"); ("created_at", JStr "t0");
              ("display_at", JStr "t0"); ("status", JStr "resolved"); ("incident_id", JStr "i1")] in
  let extra := [("affected_components", JArr [])] in
  Forall (fun k => obj_lookup k extra = None) update_fields /\
  parse_update (JObj (kvs ++ extra)) = parse_update (JObj kvs).
Proof.
  cbv zeta. split; [apply (bool_decide_unpack _); vm_compute; reflexivity|].
  apply parse_update_extra_fields. apply (bool_decide_unpack _); vm_compute; reflexivity.
Defined.

(** A summary dict without a [components] key parses to no component;
    [components: null] raises [TypeError] (iterating [None]); a payload that
    is a JSON list, not a dict, raises [AttributeError] at [data.get]. *)
Theorem parse_components_degenerate (kvs : list (string * json))
    (H : obj_lookup "components" kvs = None) :
  _parse_components (JObj kvs) = inr [] /\
  _parse_components (JObj (("components", JNull) :: kvs)) = inl TypeError /\
  (forall l, _parse_components (JArr l) = inl AttributeError).
Proof.
  unfold _parse_components. simpl. rewrite H. done.
Qed.

Lemma parse_components_degenerate_witness :
  obj_lookup "components" [("page", JObj []); ("status", JObj [])] = None /\
  _parse_components (JObj [("page", JObj []); ("status", JObj [])]) = inr [].
Proof.
  assert (H : obj_lookup "components" [("page", JObj []); ("status", JObj [])] = None) by reflexivity.
  split; [exact H|]. exact (proj1 (parse_components_degenerate _ H)).
Defined.

(** The same three cases for [_parse_incidents] and its [incidents] key. *)
Theorem parse_incidents_degenerate (kvs : list (string * json))
    (H : obj_lookup "incidents" kvs = None) :
  _parse_incidents (JObj kvs) = inr [] /\
  _parse_incidents (JObj (("incidents", JNull) :: kvs)) = inl TypeError /\
  (forall l, _parse_incidents (JArr l) = inl AttributeError).
Proof.
  unfold _parse_incidents. simpl. rewrite H. done.
Qed.

Lemma parse_incidents_degenerate_witness :
  obj_lookup "incidents" [("page", JObj [])] = None /\
  _parse_incidents (JObj [("page", JObj [])]) = inr [].
Proof.
  assert (H : obj_lookup "incidents" [("page", JObj [])] = None) by reflexivity.
  split; [exact H|]. exact (proj1 (parse_incidents_degenerate _ H)).
Defined.


(** When the summary payload parses and the incidents payload raises, the
    cycle keeps the summary's work: its component events are printed and
    [last_known_state] is updated as the detector leaves it, the parser's
    exception escapes, and [processed_incident_updates] is unchanged. *)
Theorem malformed_incidents_keeps_summary_work (m : Monitor) s i ds di
    (cs : list ComponentStatus) (e : exc)
    (Hs : (_fetch_with_etag (etags m) SUMMARY_ENDPOINT s).1 = inr ds)
    (Hts : truthy ds = true)
    (Hcs : _parse_components ds = inr cs)
    (Hi : (_fetch_with_etag (etags m) INCIDENTS_ENDPOINT i).1 = inr di)
    (Hti : truthy di = true)
    (He : _parse_incidents di = inl e) :
  let '(m', evs, r) := check_status_updates m s i in
  r = Some e /\
  evs = (_detect_component_changes (last_known_state m) cs).2 /\
  last_known_state m' = (_detect_component_changes (last_known_state m) cs).1 /\
  processed_incident_updates m' = processed_incident_updates m.
Proof.
  unfold check_status_updates.
  destruct (_fetch_with_etag (etags m) SUMMARY_ENDPOINT s) as [d1 et1] eqn:E1.
  simpl in Hs. subst d1. simpl. rewrite Hts. unfold process_summary. rewrite Hcs. simpl.
  destruct (_detect_component_changes (last_known_state m) cs) as [st evs] eqn:Ed. simpl.
  destruct (_fetch_with_etag et1 INCIDENTS_ENDPOINT i) as [d2 et2] eqn:E2.
  assert (Hd2 : d2 = (_fetch_with_etag (etags m) INCIDENTS_ENDPOINT i).1).
  { change d2 with (d2, et2).1. rewrite <- E2. apply fetch_with_etag_data. }
  rewrite Hd2, Hi. simpl. rewrite Hti. unfold process_incidents. rewrite He. simpl.
  rewrite app_nil_r. done.
Qed.

Lemma malformed_incidents_keeps_summary_work_witness :
  let s := ok200 (summary_json [comp_json "c1" "API" "operational"]) in
  let i := ok200 (incidents_json [JObj [("id", JStr "i1")]]) in
  (_fetch_with_etag (etags init_monitor) SUMMARY_ENDPOINT s).1 =
    inr (summary_json [comp_json "c1" "API" "operational"]) /\
  truthy (summary_json [comp_json "c1" "API" "operational"]) = true /\
  _parse_components (summary_json [comp_json "c1" "API" "operational"]) =
    inr [mk_component "c1" "API" "operational"] /\
  (_fetch_with_etag (etags init_monitor) INCIDENTS_ENDPOINT i).1 =
    inr (incidents_json [JObj [("id", JStr "i1")]]) /\
  truthy (incidents_json [JObj [("id", JStr "i1")]]) = true /\
  _parse_incidents (incidents_json [JObj [("id", JStr "i1")]]) = inl (KeyError "name") /\
  (let '(m', evs, r) := check_status_updates init_monitor s i in
   r = Some (KeyError "name") /\
   evs = (_detect_component_changes (last_known_state init_monitor) [mk_component "c1" "API" "operational"]).2 /\
   last_known_state m' =
     (_detect_component_changes (last_known_state init_monitor) [mk_component "c1" "API" "operational"]).1 /\
   processed_incident_updates m' = processed_incident_updates init_monitor).
Proof.
  intros s i.
  assert (H1 : (_fetch_with_etag (etags init_monitor) SUMMARY_ENDPOINT s).1 =
                 inr (summary_json [comp_json "c1" "API" "operational"])) by reflexivity.
  assert (H2 : truthy (summary_json [comp_json "c1" "API" "operational"]) = true)
    by (vm_compute; reflexivity).
  assert (H3 : _parse_components (summary_json [comp_json "c1" "API" "operational"]) =
                 inr [mk_component "c1" "API" "operational"]) by (vm_compute; reflexivity).
  assert (H4 : (_fetch_with_etag (etags init_monitor) INCIDENTS_ENDPOINT i).1 =
                 inr (incidents_json [JObj [("id", JStr "i1")]])) by reflexivity.
  assert (H5 : truthy (incidents_json [JObj [("id", JStr "i1")]]) = true)
    by (vm_compute; reflexivity).
  assert (H6 : _parse_incidents (incidents_json [JObj [("id", JStr "i1")]]) = inl (KeyError "name"))
    by (vm_compute; reflexivity).
  split; [exact H1|]. split; [exact H2|]. split; [exact H3|].
  split; [exact H4|]. split; [exact H5|]. split; [exact H6|].
  exact (malformed_incidents_keeps_summary_work init_monitor s i _ _ _ _ H1 H2 H3 H4 H5 H6).
Defined.

(* ------------------------------------------------------------------ *)
(** ** Stripping the double quotes of an [ETag] *)

Section StripQuotes.

Lemma drop_quotes_repeat n l : drop_quotes (repeat dquote n ++ l) = drop_quotes l.
Proof. induction n as [|n IH]; simpl; [done|]. by rewrite ?Ascii.eqb_refl. Qed.

Lemma drop_quotes_id l : hd_error l <> Some dquote -> drop_quotes l = l.
Proof.
  destruct l as [|c l]; simpl; [done|]. intros Hc.
  destruct (Ascii.eqb_spec c dquote) as [->|_]; [done|done].
Qed.

Lemma drop_quotes_hd l : hd_error (drop_quotes l) <> Some dquote.
Proof.
  induction l as [|c l IH]; simpl; [done|].
  destruct (Ascii.eqb_spec c dquote) as [_|Hne]; [done|]. simpl. congruence.
Qed.

Lemma drop_quotes_suffix l : exists pre, l = pre ++ drop_quotes l.
Proof.
  induction l as [|c l [pre IH]]; simpl; [by exists []|].
  destruct (Ascii.eqb c dquote); [exists (c :: pre); simpl; congruence | by exists []].
Qed.

Lemma hd_error_app_l {A} (x y : list A) : x <> [] -> hd_error (x ++ y) = hd_error x.
Proof. by destruct x. Qed.

End StripQuotes.

(** Stripping is idempotent: a stored validator is already in stripped form,
    so stripping it again changes nothing. *)
Theorem strip_quotes_idempotent (s : string) : strip_quotes (strip_quotes s) = strip_quotes s.
Proof.
  unfold strip_quotes. rewrite String.list_ascii_of_string_of_list_ascii.
  set (a := drop_quotes (String.list_ascii_of_string s)).
  set (b := drop_quotes (rev a)).
  assert (Hr : drop_quotes (rev b) = rev b).
  { apply drop_quotes_id. destruct (drop_quotes_suffix (rev a)) as [pre Hpre].
    fold b in Hpre.
    assert (Ha : a = rev b ++ rev pre).
    { rewrite <- (rev_involutive a), Hpre, rev_app_distr. done. }
    destruct (decide (rev b = [])) as [->|Hne]; [done|].
    rewrite <- (hd_error_app_l (rev b) (rev pre) Hne), <- Ha. apply drop_quotes_hd. }
  rewrite Hr, rev_involutive. unfold b at 1. rewrite (drop_quotes_id (drop_quotes (rev a)))
    by apply drop_quotes_hd.
  done.
Qed.

(** An [ETag] wrapped in any number of double quotes on either side is
    stored as the bare tag, provided the tag itself neither starts nor ends
    with a quote. *)
Theorem strip_quotes_quoted (cs : list Ascii.ascii) (n k : nat)
    (Hhd : hd_error cs <> Some dquote) (Hlast : hd_error (rev cs) <> Some dquote) :
  strip_quotes (String.string_of_list_ascii (repeat dquote n ++ cs ++ repeat dquote k)) =
  String.string_of_list_ascii cs.
Proof.
  unfold strip_quotes. rewrite String.list_ascii_of_string_of_list_ascii, drop_quotes_repeat.
  destruct (decide (cs = [])) as [->|Hne].
  - simpl. rewrite <- (app_nil_r (repeat dquote k)), drop_quotes_repeat. done.
  - rewrite (drop_quotes_id (cs ++ repeat dquote k))
      by (rewrite hd_error_app_l by done; exact Hhd).
    rewrite rev_app_distr, rev_repeat, drop_quotes_repeat, drop_quotes_id by exact Hlast.
    rewrite rev_involutive. done.
Qed.

Lemma strip_quotes_quoted_witness :
  let cs := String.list_ascii_of_string "abc123" in
  hd_error cs <> Some dquote /\ hd_error (rev cs) <> Some dquote /\
  strip_quotes (String.string_of_list_ascii (repeat dquote 1 ++ cs ++ repeat dquote 2)) = "abc123".
Proof.
  intros cs.
  assert (H1 : hd_error cs <> Some dquote) by (apply (bool_decide_unpack _); vm_compute; reflexivity).
  assert (H2 : hd_error (rev cs) <> Some dquote) by (apply (bool_decide_unpack _); vm_compute; reflexivity).
  split; [exact H1|]. split; [exact H2|].
  exact (strip_quotes_quoted cs 1 2 H1 H2).
Defined.

(* ------------------------------------------------------------------ *)
(** ** The state of the monitor across cycles *)

Section State.

Lemma last_signature_from_some k cs v :
  exists v', fold_left (fun acc c => if String.eqb (state_key c) k then Some (current_state c) else acc)
               cs (Some v) = Some v'.
Proof.
  revert v. induction cs as [|c cs IH]; intros v; cbn [fold_left]; [eauto|].
  destruct (String.eqb (state_key c) k); apply IH.
Qed.

Lemma store_all_fold k cs (st : gmap string string) acc :
  acc = None \/ acc = st !! k ->
  store_all st cs !! k =
  match fold_left (fun acc c => if String.eqb (state_key c) k then Some (current_state c) else acc)
          cs acc with
  | Some v => Some v
  | None => st !! k
  end.
Proof.
  revert st acc. induction cs as [|c cs IH]; intros st acc Hacc; cbn [fold_left store_all].
  - destruct Hacc as [-> | ->]; [done|]. by destruct (st !! k).
  - destruct (String.eqb_spec (state_key c) k) as [Hk|Hk].
    + rewrite (IH _ (Some (current_state c))) by (right; rewrite Hk; by rewrite lookup_insert_eq).
      destruct (last_signature_from_some k cs (current_state c)) as [v' ->]. done.
    + rewrite (IH _ acc).
      * rewrite lookup_insert_ne by done. done.
      * destruct Hacc as [-> | ->]; [by left|]. right. by rewrite lookup_insert_ne.
Qed.

Lemma store_all_last_signature (st : gmap string string) cs k :
  store_all st cs !! k =
  match last_signature k cs with Some v => Some v | None => st !! k end.
Proof. unfold last_signature. apply store_all_fold. by left. Qed.

Lemma check_status_updates_lks (m : Monitor) s i :
  last_known_state (check_status_updates m s i).1.1 =
  store_all (last_known_state m) (payload_components (_fetch_with_etag (etags m) SUMMARY_ENDPOINT s).1).
Proof.
  unfold check_status_updates, payload_components.
  destruct (_fetch_with_etag (etags m) SUMMARY_ENDPOINT s) as [[e1|d1] et1]; simpl; [done|].
  assert (Hsum : let '(m2, _, _) := (if truthy d1 then process_summary (set_etags m et1) d1
                                     else (set_etags m et1, [], None)) in
                 last_known_state m2 =
                 store_all (last_known_state m)
                   (if truthy d1 then match _parse_components d1 with inr cs => cs | inl _ => [] end
                    else [])).
  { destruct (truthy d1); [|done]. unfold process_summary.
    destruct (_parse_components d1) as [e|cs]; [done|].
    pose proof (detect_component_changes_state (last_known_state (set_etags m et1)) cs) as H.
    destruct (_detect_component_changes _ cs) as [st evs]. simpl in *. done. }
  destruct (if truthy d1 then _ else _) as [[m2 evs1] [e|]]; [done|].
  destruct (_fetch_with_etag (etags m2) INCIDENTS_ENDPOINT i) as [[e2|d2] et2]; [done|].
  destruct (truthy d2); [|done].
  rewrite process_incidents_set_etags.
  pose proof (process_incidents_frame m2 d2) as Hfr.
  destruct (process_incidents m2 d2) as [[m4 evs2] r2]. simpl. destruct Hfr as [_ ->]. done.
Qed.

Lemma fetch_with_etag_etags (et : gmap string string) ep t :
  (_fetch_with_etag et ep t).2 = et \/ exists v, (_fetch_with_etag et ep t).2 = <[ep := v]> et.
Proof.
  destruct t as [r| | |h]; simpl; unfold store_etag; try by left.
  - destruct (Z.eqb (resp_status r) 304); [by left|].
    destruct (Z.eqb (resp_status r) 200); [|by left].
    destruct (resp_etag r) as [e|]; [destruct (String.eqb e "")|]; destruct (resp_body r); eauto.
  - destruct h as [e|]; [destruct (String.eqb e "")|]; eauto.
Qed.

Lemma validators_step_refl (et : gmap string string) : validators_step et et.
Proof. intros k. done. Qed.

Lemma validators_step_trans (et1 et2 et3 : gmap string string) :
  validators_step et1 et2 -> validators_step et2 et3 -> validators_step et1 et3.
Proof.
  intros H12 H23 k. destruct (H12 k) as [A12 B12], (H23 k) as [A23 B23]. split.
  - intros Hs Hi. rewrite A23, A12; done.
  - intros H. by apply B23, B12.
Qed.

Lemma validators_step_fetch (et : gmap string string) ep t :
  ep = SUMMARY_ENDPOINT \/ ep = INCIDENTS_ENDPOINT ->
  validators_step et (_fetch_with_etag et ep t).2.
Proof.
  intros Hep. destruct (fetch_with_etag_etags et ep t) as [->|[v ->]];
    [apply validators_step_refl|].
  intros k. split.
  - intros Hs Hi. rewrite lookup_insert_ne; [done|]. intros ->. destruct Hep; congruence.
  - intros Hk. destruct (decide (ep = k)) as [->|Hne].
    + rewrite lookup_insert_eq. by eexists.
    + rewrite lookup_insert_ne by done. exact Hk.
Qed.

Lemma check_status_updates_validators (m : Monitor) s i :
  validators_step (etags m) (etags (check_status_updates m s i).1.1).
Proof.
  unfold check_status_updates.
  pose proof (validators_step_fetch (etags m) SUMMARY_ENDPOINT s (or_introl eq_refl)) as H1.
  destruct (_fetch_with_etag (etags m) SUMMARY_ENDPOINT s) as [[e1|d1] et1]; simpl in H1; [exact H1|].
  assert (Hsum : let '(m2, _, _) := (if truthy d1 then process_summary (set_etags m et1) d1
                                     else (set_etags m et1, [], None)) in etags m2 = et1).
  { destruct (truthy d1); [|done].
    pose proof (process_summary_frame (set_etags m et1) d1) as H.
    destruct (process_summary _ d1) as [[m2 evs] r]. apply H. }
  destruct (if truthy d1 then _ else _) as [[m2 evs1] [e|]]; simpl in Hsum; [by subst|].
  pose proof (validators_step_fetch (etags m2) INCIDENTS_ENDPOINT i (or_intror eq_refl)) as H2.
  destruct (_fetch_with_etag (etags m2) INCIDENTS_ENDPOINT i) as [[e2|d2] et2]; simpl in H2;
    subst et1; eapply validators_step_trans; try exact H1; [exact H2|].
  destruct (truthy d2); [|exact H2].
  pose proof (process_incidents_frame (set_etags m2 et2) d2) as Hfr.
  destruct (process_incidents _ d2) as [[m4 evs2] r2]. simpl. destruct Hfr as [-> _]. exact H2.
Qed.

Lemma initial_components_app (evs1 evs2 : list event) :
  initial_components (evs1 ++ evs2) = initial_components evs1 ++ initial_components evs2.
Proof.
  induction evs1 as [|[c [|old]|i u] evs1 IH]; simpl; try done; by rewrite IH.
Qed.

Lemma initial_pass_nil (st : gmap string string) : initial_pass st st [].
Proof.
  split; [constructor|]. split; [intros c Hc; by apply elem_of_nil in Hc|]. simpl. set_solver.
Qed.

Lemma initial_pass_no_initial (st : gmap string string) evs :
  initial_components evs = [] -> initial_pass st st evs.
Proof. intros H. unfold initial_pass. rewrite H. apply initial_pass_nil. Qed.

Lemma initial_pass_app (st st1 st2 : gmap string string) evs1 evs2 :
  initial_pass st st1 evs1 -> initial_pass st1 st2 evs2 -> initial_pass st st2 (evs1 ++ evs2).
Proof.
  intros (Hnd1 & Hnew1 & Hdom1) (Hnd2 & Hnew2 & Hdom2).
  unfold initial_pass. rewrite initial_components_app, map_app. split; [|split].
  - apply NoDup_app. split; [done|]. split; [|done].
    intros k Hk1 Hk2.
    apply list_elem_of_In, in_map_iff in Hk2 as (c & <- & Hc).
    apply list_elem_of_In in Hc. apply Hnew2 in Hc.
    apply not_elem_of_dom in Hc. apply Hc. rewrite Hdom1. apply elem_of_union_l.
    by apply elem_of_list_to_set.
  - intros c Hc. apply elem_of_app in Hc as [Hc|Hc]; [by apply Hnew1|].
    apply Hnew2 in Hc. apply not_elem_of_dom. apply not_elem_of_dom in Hc.
    rewrite Hdom1 in Hc. set_solver.
  - rewrite Hdom2, Hdom1, list_to_set_app_L. set_solver.
Qed.

Lemma detect_component_changes_initial (st : gmap string string) cs :
  let '(st', evs) := _detect_component_changes st cs in initial_pass st st' evs.
Proof.
  revert st. induction cs as [|c cs IH]; intros st; [apply initial_pass_nil|].
  rewrite detect_component_changes_cons.
  specialize (IH (<[state_key c := current_state c]> st)).
  destruct (_detect_component_changes _ cs) as [st' evs].
  eapply initial_pass_app; [|exact IH].
  unfold component_events. destruct (st !! state_key c) as [old|] eqn:Hst.
  - assert (Hdom : dom (<[state_key c := current_state c]> st) = dom st).
    { rewrite dom_insert_L. apply elem_of_dom_2 in Hst. set_solver. }
    destruct (String.eqb old (current_state c)).
    + assert (H : initial_pass st st []) by apply initial_pass_nil.
      unfold initial_pass in *. rewrite Hdom. exact H.
    + assert (H : initial_pass st st [ComponentEvent c (StatusChangedFrom old)])
        by (by apply initial_pass_no_initial).
      unfold initial_pass in *. rewrite Hdom. exact H.
  - split; [repeat constructor; set_solver|]. split.
    + simpl. intros c' Hc'. apply list_elem_of_singleton in Hc' as ->. done.
    + simpl. rewrite dom_insert_L. set_solver.
Qed.

Lemma detect_updates_no_initial (p : gset string) i us :
  initial_components (detect_updates p i us).2 = [].
Proof.
  revert p. induction us as [|u us IH]; intros p; simpl; [done|].
  destruct (decide (upd_id u ∈ p)); [apply IH|].
  specialize (IH ({[upd_id u]} ∪ p)). destruct (detect_updates _ i us). done.
Qed.

Lemma detect_incident_updates_no_initial (p : gset string) is :
  initial_components (_detect_incident_updates p is).2 = [].
Proof.
  revert p. induction is as [|i is IH]; intros p; simpl; [done|].
  pose proof (detect_updates_no_initial p i (inc_updates i)) as H1.
  destruct (detect_updates p i _) as [p1 evs1]. specialize (IH p1).
  destruct (_detect_incident_updates p1 is) as [p2 evs2]. simpl in *.
  by rewrite initial_components_app, H1, IH.
Qed.

Lemma check_status_updates_initial (m : Monitor) s i :
  let '(m', evs, _) := check_status_updates m s i in
  initial_pass (last_known_state m) (last_known_state m') evs.
Proof.
  unfold check_status_updates.
  destruct (_fetch_with_etag (etags m) SUMMARY_ENDPOINT s) as [[e1|d1] et1]; [apply initial_pass_nil|].
  assert (Hsum : let '(m2, evs1, _) := (if truthy d1 then process_summary (set_etags m et1) d1
                                        else (set_etags m et1, [], None)) in
                 initial_pass (last_known_state m) (last_known_state m2) evs1).
  { destruct (truthy d1); [|apply initial_pass_nil]. unfold process_summary.
    destruct (_parse_components d1) as [e|cs]; [apply initial_pass_nil|].
    pose proof (detect_component_changes_initial (last_known_state (set_etags m et1)) cs) as H.
    destruct (_detect_component_changes _ cs) as [st evs]. exact H. }
  destruct (if truthy d1 then _ else _) as [[m2 evs1] [e|]]; [done|].
  destruct (_fetch_with_etag (etags m2) INCIDENTS_ENDPOINT i) as [[e2|d2] et2]; [done|].
  assert (Hinc : let '(m4, evs2, _) := (if truthy d2 then process_incidents (set_etags m2 et2) d2
                                        else (set_etags m2 et2, [], None)) in
                 initial_pass (last_known_state m2) (last_known_state m4) evs2).
  { destruct (truthy d2); [|apply initial_pass_nil]. unfold process_incidents.
    destruct (_parse_incidents d2) as [e|is]; [apply initial_pass_nil|].
    pose proof (detect_incident_updates_no_initial (processed_incident_updates (set_etags m2 et2)) is) as H.
    destruct (_detect_incident_updates _ is) as [p evs]. by apply initial_pass_no_initial. }
  destruct (if truthy d2 then _ else _) as [[m4 evs2] r2].
  by eapply initial_pass_app.
Qed.

Lemma NoDup_state_keys_ids (cs : list ComponentStatus) :
  NoDup (map state_key cs) -> NoDup (map comp_id cs).
Proof.
  induction cs as [|c cs IH]; simpl; intros Hnd; [constructor|].
  apply NoDup_cons in Hnd as [Hnin Hnd]. apply NoDup_cons. split; [|by apply IH].
  intros Hin. apply Hnin. apply list_elem_of_In in Hin. apply in_map_iff in Hin as (c' & Hk & Hc').
  apply list_elem_of_In, in_map_iff. exists c'. split; [|done].
  unfold state_key. by rewrite Hk.
Qed.

End State.

(** After one cycle, [last_known_state] holds under each key the signature
    of the last component with that id in the summary the cycle parsed;
    every other key keeps its value.  A component that disappears from the
    summary is never forgotten, and of two records with the same id the
    later one wins.  Nothing is stored when the summary request raised, or
    its value was skipped or failed to parse. *)
Theorem check_status_updates_last_known_state (m : Monitor) s i k :
  last_known_state (check_status_updates m s i).1.1 !! k =
  match last_signature k (payload_components (_fetch_with_etag (etags m) SUMMARY_ENDPOINT s).1) with
  | Some v => Some v
  | None => last_known_state m !! k
  end.
Proof. rewrite check_status_updates_lks. apply store_all_last_signature. Qed.

(** Over any run of [start_monitoring], [etags] gains entries only for the
    two endpoints, never changes the entry of any other key, and never loses
    an entry: a validator, once stored, is sent on every later request of
    its endpoint. *)
Theorem start_monitoring_validators (m : Monitor) (cycles : list (transport * transport)) :
  let '(m', _, _) := start_monitoring m cycles in
  forall k,
    (k <> SUMMARY_ENDPOINT -> k <> INCIDENTS_ENDPOINT -> etags m' !! k = etags m !! k) /\
    (is_Some (etags m !! k) -> is_Some (etags m' !! k)).
Proof.
  change (let '(m', _, _) := start_monitoring m cycles in validators_step (etags m) (etags m')).
  revert m. induction cycles as [|[s i] cycles IH]; intros m; simpl; [apply validators_step_refl|].
  pose proof (check_status_updates_validators m s i) as H1.
  destruct (check_status_updates m s i) as [[m1 evs1] [e|]]; [done|].
  specialize (IH m1). destruct (start_monitoring m1 cycles) as [[m2 evs2] r2].
  by eapply validators_step_trans.
Qed.

(** Over any run of [start_monitoring], each component id is printed with
    [Initial Status] at most once, only if its key was not stored when the
    run began, and the keys of [last_known_state] grow by exactly the keys
    of those lines: no key is ever removed. *)
Theorem initial_status_once_per_component (m : Monitor) (cycles : list (transport * transport)) :
  let '(m', evs, _) := start_monitoring m cycles in
  NoDup (map comp_id (initial_components evs)) /\
  (forall c, c ∈ initial_components evs -> last_known_state m !! state_key c = None) /\
  dom (last_known_state m') =
    list_to_set (map state_key (initial_components evs)) ∪ dom (last_known_state m).
Proof.
  assert (H : let '(m', evs, _) := start_monitoring m cycles in
              initial_pass (last_known_state m) (last_known_state m') evs).
  { revert m. induction cycles as [|[s i] cycles IH]; intros m; simpl; [apply initial_pass_nil|].
    pose proof (check_status_updates_initial m s i) as H1.
    destruct (check_status_updates m s i) as [[m1 evs1] [e|]]; [done|].
    specialize (IH m1). destruct (start_monitoring m1 cycles) as [[m2 evs2] r2].
    by eapply initial_pass_app. }
  destruct (start_monitoring m cycles) as [[m' evs] r].
  destruct H as (Hnd & Hnew & Hdom). split; [by apply NoDup_state_keys_ids|]. done.
Qed.

(* ------------------------------------------------------------------ *)
(** ** Product extraction *)

Section Products.

Lemma filter_nil_Forall {A} (P : A -> Prop) `{forall x, Decision (P x)} (l : list A) :
  filter P l = [] <-> Forall (fun x => ~ P x) l.
Proof.
  induction l as [|x l IH]; [split; [constructor|done]|].
  rewrite filter_cons, Forall_cons. destruct (decide (P x)) as [Hx|Hx]; [|rewrite IH; tauto].
  split; [done|]. intros [Hn _]. done.
Qed.

Lemma filter_sublist_mono {A} (P Q : A -> Prop) `{forall x, Decision (P x)} `{forall x, Decision (Q x)}
    (l : list A) :
  (forall x, P x -> Q x) -> filter P l `sublist_of` filter Q l.
Proof.
  intros HPQ. induction l as [|x l IH]; [done|].
  rewrite !filter_cons. destruct (decide (P x)) as [Hp|Hp].
  - rewrite decide_True by auto. by apply sublist_skip.
  - destruct (decide (Q x)); [by apply sublist_cons|done].
Qed.

Lemma str_lower_app (a b : string) : str_lower (a +:+ b) = str_lower a +:+ str_lower b.
Proof. induction a as [|c a IH]; simpl; [done|]. by rewrite IH. Qed.

Lemma is_prefix_app (p s t : string) : is_prefix p s = true -> is_prefix p (s +:+ t) = true.
Proof.
  revert s. induction p as [|c p IH]; intros s; [done|].
  destruct s as [|d s]; simpl; [done|].
  intros [Hc Hp]%andb_prop. rewrite Hc. simpl. by apply IH.
Qed.

Lemma contains_app_r (s t p : string) : contains s p = true -> contains (s +:+ t) p = true.
Proof.
  induction s as [|c s IH]; simpl.
  - intros H. apply orb_prop in H as [H|H]; [|done].
    destruct p; [|done]. by destruct t.
  - intros H. apply orb_prop in H as [H|H].
    + apply orb_true_intro. left. by apply (is_prefix_app p (String c s) t).
    + apply orb_true_intro. right. by apply IH.
Qed.

Lemma contains_app_l (s t p : string) : contains s p = true -> contains (t +:+ s) p = true.
Proof.
  induction t as [|c t IH]; simpl; [done|].
  intros H. apply orb_true_intro. right. by apply IH.
Qed.

Lemma is_prefix_O_app (p s : string) : p <> "" -> is_prefix "O" (p +:+ s) = is_prefix "O" p.
Proof. destruct p; [done|]. intros _. simpl. done. Qed.

End Products.


(** Adding text before or after an incident name never drops a product from
    those it is tagged with, and keeps them in the order of the list. *)
Theorem found_products_extend (incident_name more : string) :
  found_products incident_name `sublist_of` found_products (incident_name +:+ more) /\
  found_products incident_name `sublist_of` found_products (more +:+ incident_name).
Proof.
  unfold found_products. rewrite !str_lower_app. split; apply filter_sublist_mono; intros p Hp.
  - by apply contains_app_r.
  - by apply contains_app_l.
Qed.

(* ------------------------------------------------------------------ *)
(** ** Replaying a components payload *)

Section Replay.

Lemma consistent_ids_cons c cs : consistent_ids (c :: cs) -> consistent_ids cs.
Proof. intros H c1 c2 H1 H2. apply H; by apply list_elem_of_further. Qed.

Lemma store_all_consistent (st : gmap string string) cs c :
  consistent_ids cs -> c ∈ cs -> store_all st cs !! state_key c = Some (current_state c).
Proof.
  revert st c. induction cs as [|c0 cs IH]; intros st c Hcons Hc; simpl; [by apply elem_of_nil in Hc|].
  apply elem_of_cons in Hc as [->|Hc]; [|apply IH; [by eapply consistent_ids_cons|done]].
  destruct (decide (state_key c0 ∈ map state_key cs)) as [Hk|Hk].
  - apply list_elem_of_In, in_map_iff in Hk as (c1 & Hk & Hc1). apply list_elem_of_In in Hc1.
    rewrite <- Hk, (IH _ _ (consistent_ids_cons _ _ Hcons) Hc1). f_equal.
    apply Hcons; [by apply list_elem_of_further|apply list_elem_of_here|by apply state_key_inj].
  - rewrite store_all_lookup_notin by done. by rewrite lookup_insert_eq.
Qed.

Lemma detect_component_changes_silent (st : gmap string string) cs :
  (_detect_component_changes st cs).2 = [] ->
  forall c, c ∈ cs -> st !! state_key c = Some (current_state c).
Proof.
  revert st. induction cs as [|c cs IH]; intros st Hnil c' Hc'; [by apply elem_of_nil in Hc'|].
  rewrite detect_component_changes_cons in Hnil.
  assert (Hst : st !! state_key c = Some (current_state c)).
  { destruct (_detect_component_changes _ cs) as [st' evs]. cbn [snd] in Hnil.
    apply app_eq_nil in Hnil as [Hce _]. unfold component_events in Hce.
    destruct (st !! state_key c) as [o|]; [|discriminate Hce].
    destruct (String.eqb_spec o (current_state c)) as [Ho|_]; [by rewrite Ho|discriminate Hce]. }
  rewrite (insert_id st (state_key c) (current_state c) Hst) in Hnil.
  destruct (_detect_component_changes st cs) as [st' evs] eqn:E. cbn [snd] in Hnil.
  apply app_eq_nil in Hnil as [_ ->].
  apply elem_of_cons in Hc' as [->|Hc']; [done|].
  apply (IH st); [by rewrite E|done].
Qed.

Lemma detect_component_changes_consistent (st : gmap string string) cs :
  consistent_ids cs ->
  (forall c, c ∈ cs -> st !! state_key c = None \/ st !! state_key c = Some (current_state c)) ->
  exists ics, (_detect_component_changes st cs).2 = map (fun c => ComponentEvent c InitialStatus) ics /\
    ics `sublist_of` cs /\
    (forall c, c ∈ cs -> st !! state_key c = None -> exists c', c' ∈ ics /\ comp_id c' = comp_id c).
Proof.
  revert st. induction cs as [|c cs IH]; intros st Hcons Hst.
  { exists []. split; [done|]. split; [done|]. intros c Hc. by apply elem_of_nil in Hc. }
  rewrite detect_component_changes_cons.
  destruct (IH (<[state_key c := current_state c]> st)) as (ics & Hevs & Hsub & Hcov).
  { by eapply consistent_ids_cons. }
  { intros c' Hc'. destruct (decide (state_key c = state_key c')) as [Hk|Hk].
    - right. rewrite <- Hk, lookup_insert_eq. f_equal.
      apply Hcons; [apply list_elem_of_here|by apply list_elem_of_further|by apply state_key_inj].
    - rewrite lookup_insert_ne by done. apply Hst. by apply list_elem_of_further. }
  destruct (_detect_component_changes _ cs) as [st' evs]. simpl in Hevs |- *. subst evs.
  destruct (Hst c (list_elem_of_here _ _)) as [Hn|Hs].
  - exists (c :: ics). rewrite Hn. split; [done|]. split; [by apply sublist_skip|].
    intros c0 Hc0 Hn0. destruct (decide (comp_id c0 = comp_id c)) as [Hid|Hid].
    + exists c. split; [apply list_elem_of_here|done].
    + apply elem_of_cons in Hc0 as [->|Hc0]; [done|].
      destruct (Hcov c0 Hc0) as (c' & Hc' & Hid').
      * rewrite lookup_insert_ne; [done|]. intros Hk. apply Hid. by apply state_key_inj.
      * exists c'. split; [by apply list_elem_of_further|done].
  - exists ics. unfold component_events. rewrite Hs, String.eqb_refl.
    split; [done|]. split; [by apply sublist_cons|].
    intros c0 Hc0 Hn0. apply elem_of_cons in Hc0 as [->|Hc0]; [congruence|].
    apply Hcov; [done|]. rewrite lookup_insert_ne; [done|]. intros Hk. rewrite <- Hk in Hn0. congruence.
Qed.

Lemma initial_components_map (ics : list ComponentStatus) :
  initial_components (map (fun c => ComponentEvent c InitialStatus) ics) = ics.
Proof. induction ics as [|c ics IH]; simpl; [done|]. by rewrite IH. Qed.

End Replay.

(** Claim C3 (as amended).  A second call of [_detect_component_changes]
    with the payload of the first, from the state the first left, leaves
    that state unchanged, so every later replay is the same call and prints
    the same events.  The replay prints nothing exactly when every two
    components of the payload with the same id have the same [name:status]
    string, in particular when the ids are distinct.  For such a payload,
    the first call from the empty state prints only [Initial Status]
    events, one for each distinct id, in input order. *)
Theorem detect_component_changes_replay (st : gmap string string) (cs : list ComponentStatus) :
  let st1 := (_detect_component_changes st cs).1 in
  (_detect_component_changes st1 cs).1 = st1 /\
  ((_detect_component_changes st1 cs).2 = [] <-> consistent_ids cs) /\
  (consistent_ids cs ->
   let evs := (_detect_component_changes ∅ cs).2 in
   evs = map (fun c => ComponentEvent c InitialStatus) (initial_components evs) /\
   NoDup (map comp_id (initial_components evs)) /\
   initial_components evs `sublist_of` cs /\
   (forall c, c ∈ cs -> exists c', c' ∈ initial_components evs /\ comp_id c' = comp_id c)).
Proof.
  cbv zeta. rewrite !detect_component_changes_state. split; [apply store_all_idem|]. split.
  - split.
    + intros Hnil c1 c2 Hc1 Hc2 Hid.
      pose proof (detect_component_changes_silent _ _ Hnil) as Hall.
      assert (Hk : state_key c1 = state_key c2) by (unfold state_key; by rewrite Hid).
      pose proof (Hall c1 Hc1) as H1. pose proof (Hall c2 Hc2) as H2.
      rewrite Hk in H1. congruence.
    + intros Hcons. rewrite detect_component_changes_all_stored; [done|].
      intros c Hc. by apply store_all_consistent.
  - intros Hcons.
    destruct (detect_component_changes_consistent ∅ cs Hcons) as (ics & Hevs & Hsub & Hcov).
    { intros c _. left. apply lookup_empty. }
    pose proof (detect_component_changes_initial ∅ cs) as Hinit.
    destruct (_detect_component_changes ∅ cs) as [st' evs]. simpl in Hevs |- *. subst evs.
    destruct Hinit as (Hnd & _ & _). rewrite initial_components_map in Hnd |- *.
    split; [done|]. split; [by apply NoDup_state_keys_ids|]. split; [done|].
    intros c Hc. apply Hcov; [done|]. apply lookup_empty.
Qed.
